(** * DanmDown: the danmaku downloader of [main.py]

    A shallow embedding of the wire decoder ([ProtobufDecoder]), of the
    fingerprint merge ([merge_danmaku_in_place]) and of the two acquisition
    loops ([get_segmented_danmaku], [get_history_danmaku_js_style]) with the
    orchestrator around them, followed by the properties of the
    specification that are stated about them.

    Conventions.
    - A Python [int] is a [Z]; [bytes] is a [list byte]; a Python [str] is
      the list of its code points ([pystr]); a [dict] with string keys is a
      [gmap string _]; the [set] of fingerprints is a [gset string].
    - What Python itself supplies and the repository does not define
      (the string hash, the UTF-8 codec, the local-time conversion) is the
      interface [Platform].
    - The network is a deterministic transition function on an arbitrary
      server state; everything the downloader does to the outside world
      (requests, sleeps) is recorded in a trace. *)

From Stdlib Require Import ZArith QArith.
From stdpp Require Import gmap strings list fin_maps pretty sorting.
From Stdlib.Strings Require Import Byte Ascii.

Local Open Scope Z_scope.

(** ** Python values *)

(** A Python [str]: its sequence of code points. [len(s)] is [length s]. *)
Definition pystr := list N.

(** The values stored in the dictionary built by [decode_danmaku_element]. *)
Inductive pyval :=
  | PyInt (z : Z)
  | PyStr (s : pystr).

(** A naive [datetime]: microseconds of local time since the local epoch.
    The bounds of [datetime] ([datetime.min], [datetime.max]) are not
    modelled for additions and subtractions of a [timedelta]: see
    [is_datetime]. *)
Definition datetime := Z.

(** What the Python runtime supplies. [py_hash] is the built-in [hash] on
    [str] (seeded per process); [utf8_strict] is [bytes.decode('utf-8')],
    [None] standing for [UnicodeDecodeError]; [utf8_ignore] is
    [bytes.decode('utf-8', errors='ignore')]; [fromtimestamp] is
    [datetime.fromtimestamp], [None] standing for the exception it raises
    on an epoch that has no local calendar time. *)
Class Platform := {
  py_hash : pystr → Z;
  utf8_strict : list byte → option pystr;
  utf8_ignore : list byte → pystr;
  fromtimestamp : Z → option datetime
}.

(** The truth value of an optional argument: [None] is falsy, a
    [datetime] never is. *)
Definition truthy {A} (o : option A) : bool :=
  match o with
  | Some _ => true
  | None => false
  end.

(** ** Bytes and slices *)

Definition byte_val (b : byte) : Z := Z.of_N (Byte.to_N b).

(** [len(data)] *)
Definition len {A} (l : list A) : Z := Z.of_nat (length l).

(** [data[lo:hi]] for indices that are not negative: both ends are clamped
    to the length, as Python does. *)
Definition py_slice {A} (data : list A) (lo hi : Z) : list A :=
  let lo' := Z.min lo (len data) in
  let hi' := Z.min hi (len data) in
  take (Z.to_nat (hi' - lo')) (drop (Z.to_nat lo') data).

(** ** [ProtobufDecoder.decode_varint] *)

(** The [while pos < len(data)] loop, on the bytes from [pos] on. *)
Fixpoint varint_loop (rest : list byte) (result shift pos : Z) : Z * Z :=
  match rest with
  | [] => (result, pos)
  | b :: rest' =>
      let pos := pos + 1 in
      let result := Z.lor result (Z.shiftl (Z.land (byte_val b) 0x7F) shift) in
      if Z.land (byte_val b) 0x80 =? 0 then (result, pos)
      else varint_loop rest' result (shift + 7) pos
  end.

Definition decode_varint (data : list byte) (offset : Z) : Z * Z :=
  varint_loop (drop (Z.to_nat offset) data) 0 0 offset.

(** ** [ProtobufDecoder.decode_string] *)

Definition decode_string `{Platform} (data : list byte) (offset length : Z) : pystr :=
  match utf8_strict (py_slice data offset (offset + length)) with
  | Some s => s
  | None => utf8_ignore (py_slice data offset (offset + length))
  end.

(** ** [ProtobufDecoder.decode_danmaku_element] *)

Definition field_map : gmap Z string :=
  {[ 1 := "id"; 2 := "progress"; 3 := "mode"; 4 := "fontsize";
     5 := "color"; 8 := "ctime"; 9 := "weight"; 11 := "pool" ]}.

Definition string_map : gmap Z string :=
  {[ 6 := "midHash"; 7 := "content"; 12 := "idStr" ]}.

(** One run of the loop body starting at [pos]: [Some (pos', element')] when
    the loop goes on, [None] on [break]. *)
Definition element_step `{Platform} (data : list byte) (pos : Z)
    (element : gmap string pyval) : option (Z * gmap string pyval) :=
  let '(field_tag, pos) := decode_varint data pos in
  let field_number := Z.shiftr field_tag 3 in
  let wire_type := Z.land field_tag 0x7 in
  if wire_type =? 0 then
    let '(value, pos) := decode_varint data pos in
    match field_map !! field_number with
    | Some key => Some (pos, <[key := PyInt value]> element)
    | None => Some (pos, element)
    end
  else if wire_type =? 2 then
    let '(length, pos) := decode_varint data pos in
    let string_value := decode_string data pos length in
    match string_map !! field_number with
    | Some key => Some (pos + length, <[key := PyStr string_value]> element)
    | None => Some (pos + length, element)
    end
  else None.

(** The [while pos < len(data)] loop. Every iteration reads at least the
    tag byte, so [len data - pos] iterations are enough; [None] is the
    loop still running when [fuel] is used up. *)
Fixpoint element_loop `{Platform} (fuel : nat) (data : list byte) (pos : Z)
    (element : gmap string pyval) : option (gmap string pyval) :=
  if pos <? len data then
    match fuel with
    | O => None
    | S fuel =>
        match element_step data pos element with
        | Some (pos, element) => element_loop fuel data pos element
        | None => Some element
        end
    end
  else Some element.

(** [return element if element else None]; an empty dict is falsy. *)
Definition decode_danmaku_element `{Platform} (data : list byte)
    : option (gmap string pyval) :=
  match element_loop (length data) data 0 ∅ with
  | Some element => if decide (element = ∅) then None else Some element
  | None => None
  end.

(** ** [DanmakuElement] *)

Record DanmakuElement := mkDanmaku {
  id : Z;
  progress : Z;
  mode : Z;
  fontsize : Z;
  color : Z;
  ctime : Z;
  pool : Z;
  midHash : pystr;
  content : pystr;
  weight : Z
}.

(** [data.get(key, default)] at the type the decoder stores under [key]:
    integers under the keys of [field_map], strings under those of
    [string_map] (see [element_loop_typed]). *)
Definition get_int (data : gmap string pyval) (key : string) (default : Z) : Z :=
  match data !! key with
  | Some (PyInt z) => z
  | _ => default
  end.

Definition get_str (data : gmap string pyval) (key : string) (default : pystr) : pystr :=
  match data !! key with
  | Some (PyStr s) => s
  | _ => default
  end.

(** [DanmakuElement.__init__] *)
Definition DanmakuElement_init (data : gmap string pyval) : DanmakuElement :=
  {| id := get_int data "id" 0;
     progress := get_int data "progress" 0;
     mode := get_int data "mode" 1;
     fontsize := get_int data "fontsize" 25;
     color := get_int data "color" 16777215;
     ctime := get_int data "ctime" 0;
     pool := get_int data "pool" 0;
     midHash := get_str data "midHash" [];
     content := get_str data "content" [];
     weight := get_int data "weight" 0 |}.

(** [DanmakuElement.get_unique_id]:
    [f"{self.progress or 1}_{len(self.content)}_{hash(self.midHash) % (2**32)}"] *)
Definition get_unique_id `{Platform} (d : DanmakuElement) : string :=
  pretty (if progress d =? 0 then 1 else progress d) +:+ "_" +:+
  pretty (len (content d)) +:+ "_" +:+
  pretty (py_hash (midHash d) `mod` 2 ^ 32).

(** ** [ProtobufDecoder.decode_danmaku_response] *)

Inductive loop_step (S : Type) :=
  | Continue (s : S)
  | Break (s : S).
Arguments Continue {S} s.
Arguments Break {S} s.

Definition response_step `{Platform} (data : list byte) (pos : Z)
    (danmaku_list : list DanmakuElement) : loop_step (Z * list DanmakuElement) :=
  let '(field_tag, pos) := decode_varint data pos in
  let field_number := Z.shiftr field_tag 3 in
  let wire_type := Z.land field_tag 0x7 in
  if (field_number =? 1) && (wire_type =? 2) then
    let '(length, pos) := decode_varint data pos in
    let danmaku_data := decode_danmaku_element (py_slice data pos (pos + length)) in
    let danmaku_list :=
      match danmaku_data with
      | Some d => danmaku_list ++ [DanmakuElement_init d]
      | None => danmaku_list
      end in
    Continue (pos + length, danmaku_list)
  else if wire_type =? 0 then
    let '(_, pos) := decode_varint data pos in
    Continue (pos, danmaku_list)
  else if wire_type =? 2 then
    let '(length, pos) := decode_varint data pos in
    Continue (pos + length, danmaku_list)
  else Break (pos, danmaku_list).

Fixpoint response_loop `{Platform} (fuel : nat) (data : list byte) (pos : Z)
    (danmaku_list : list DanmakuElement) : option (list DanmakuElement) :=
  if pos <? len data then
    match fuel with
    | O => None
    | S fuel =>
        match response_step data pos danmaku_list with
        | Continue (pos, danmaku_list) => response_loop fuel data pos danmaku_list
        | Break (_, danmaku_list) => Some danmaku_list
        end
    end
  else Some danmaku_list.

(** The decoded list; [response_loop_total] shows that the fuel given here
    is never used up, so the default is never taken. *)
Definition decode_danmaku_response `{Platform} (data : list byte) : list DanmakuElement :=
  default [] (response_loop (length data) data 0 []).

(** ** The session: network, fingerprint pool, trace *)

(** [timedelta(days=n)] *)
Definition timedelta_days (n : Z) : Z := n * 86400000000.

(** The calendar day of a [datetime], as the number of days since the
    local epoch: what [strftime('%Y-%m-%d')] prints. *)
Definition date_of (d : datetime) : Z := d `div` 86400000000.

(** The date arithmetic and the float product of the history fetch are
    defined on a range only; outside it the source raises
    [OverflowError], at a place no [try] covers, and this the embedding
    does not represent: [datetime] is an unbounded [Z] here and the
    threshold of [dense] and [sparse] an exact rational. The properties
    whose statement would otherwise cover such inputs say so with the
    predicates that follow. *)
(** [datetime.min] and [datetime.max], 0001-01-01 00:00:00 and
    9999-12-31 23:59:59.999999, in microseconds since the epoch. *)
Definition datetime_min : datetime := -62135596800000000.
Definition datetime_max : datetime := 253402300799999999.

(** A value a [datetime] can have. An addition or subtraction of a
    [timedelta] whose result is not one raises [OverflowError]. *)
Definition is_datetime (d : datetime) : Prop := datetime_min ≤ d ≤ datetime_max.

(** A number of days [timedelta(days=n)] accepts; for any other it raises
    [OverflowError]. *)
Definition is_timedelta_days (n : Z) : Prop := -999999999 ≤ n ≤ 999999999.

(** An integer that [int * float] converts to a double: its absolute
    value rounds to less than [2 ^ 1024]. For any other the product
    raises [OverflowError]. *)
Definition float_of_int_defined (n : Z) : Prop :=
  - (2 ^ 1024 - 2 ^ 970) < n < 2 ^ 1024 - 2 ^ 970.

(** The two URLs the downloader requests, by their parameters:
    [.../x/v2/dm/web/seg.so?type=1&oid={cid}&segment_index={segment_index}]
    and [.../x/v2/dm/web/history/seg.so?type=1&date={date_str}&oid={cid}]. *)
Inductive request :=
  | SegmentReq (cid segment_index : Z)
  | HistoryReq (cid date : Z).

(** What [self.session.get(url, timeout=10)] gives: a response with its
    [status_code] and [content], or an exception. *)
Inductive http_result :=
  | Response (status_code : Z) (content : list byte)
  | Raised.

(** What the downloader does to the outside world. *)
Inductive event :=
  | EvGet (r : request)
  | EvSleep (seconds : Q).

(** The requests of a trace, in order. *)
Definition requests (t : list event) : list request :=
  omap (λ e, match e with EvGet r => Some r | EvSleep _ => None end) t.

(** [min(d.ctime for d in ldanmu)] of a non-empty list [d :: ds] *)
Definition min_ctime (d : DanmakuElement) (ds : list DanmakuElement) : Z :=
  foldl Z.min (ctime d) (ctime <$> ds).

(** [len(ldanmu) >= min(ondanmu, 5000) * 0.5]. The product is a float;
    it is the exact half up to 2 ^ 53 in absolute value, and beyond that
    a negative number, which compares with a length as the exact half
    does. Where the integer does not convert to a double the source
    raises: see [float_of_int_defined]. *)
Definition dense (ondanmu : Z) (ldanmu : list DanmakuElement) : bool :=
  Qle_bool (inject_Z (Z.min ondanmu 5000) * (1 # 2)) (inject_Z (len ldanmu)).

(** [len(ldanmu) < min(ondanmu, 5000) * 0.5] *)
Definition sparse (ondanmu : Z) (ldanmu : list DanmakuElement) : bool :=
  negb (Qle_bool (inject_Z (Z.min ondanmu 5000) * (1 # 2)) (inject_Z (len ldanmu))).

Section Crawl.
Context `{Platform}.
Context {Server : Type} (serve : Server → request → http_result * Server).

(** The state of one [BilibiliDanmakuDownloader] and of its surroundings:
    the remote server, [self.id_pool], and the trace so far. *)
Record session := mkSession {
  srv : Server;
  id_pool : gset string;
  trace : list event
}.

(** Computations on a session; [None]: a loop was still running when its
    fuel was used up. *)
Definition M (A : Type) : Type := session → option (A * session).

#[global] Instance M_ret : MRet M := λ A x s, Some (x, s).
#[global] Instance M_bind : MBind M := λ A B f m s,
  match m s with
  | Some (a, s) => f a s
  | None => None
  end.

Definition http_get (r : request) : M http_result := λ s,
  let '(res, srv') := serve (srv s) r in
  Some (res, {| srv := srv'; id_pool := id_pool s; trace := trace s ++ [EvGet r] |}).

Definition sleep (seconds : Q) : M unit := λ s,
  Some ((), {| srv := srv s; id_pool := id_pool s; trace := trace s ++ [EvSleep seconds] |}).

Definition out_of_fuel {A} : M A := λ _, None.

(** *** [merge_danmaku_in_place] *)

(** The second loop: a record is appended when its fingerprint is not in
    the pool, and the fingerprint added. *)
Definition merge_one (st : list DanmakuElement * gset string) (danmaku : DanmakuElement)
    : list DanmakuElement * gset string :=
  let unique_id := get_unique_id danmaku in
  if decide (unique_id ∈ st.2) then st
  else (st.1 ++ [danmaku], {[unique_id]} ∪ st.2).

(** The whole method on the list and the pool. A Python [list] has no
    attribute [id_pool], so the first loop always runs: the fingerprints
    of [target_list] are added to the pool. *)
Definition merge_pure (target_list : list DanmakuElement) (pool : gset string)
    (new_list : list DanmakuElement) : list DanmakuElement * gset string :=
  let pool := foldl (λ p danmaku, {[get_unique_id danmaku]} ∪ p) pool target_list in
  foldl merge_one (target_list, pool) new_list.

(** The method on [self]: the pool is [self.id_pool]; the list is
    updated in place, here returned. *)
Definition merge_danmaku_in_place (target_list new_list : list DanmakuElement)
    : M (list DanmakuElement) := λ s,
  let '(target_list, pool) := merge_pure target_list (id_pool s) new_list in
  Some (target_list, {| srv := srv s; id_pool := pool; trace := trace s |}).

(** *** [get_current_danmaku_info] *)

Definition get_current_danmaku_info (cid : Z) : M (Z * list DanmakuElement) :=
  response ← http_get (SegmentReq cid 1);
  match response with
  | Response status_code content =>
      if (status_code =? 200) && (0 <? len content) then
        let first_segment := decode_danmaku_response content in
        match first_segment with
        | _ :: _ => mret (len first_segment * 20, [])
        | [] => mret (5000, [])
        end
      else mret (5000, [])
  | Raised => mret (5000, [])
  end.

(** *** [get_segmented_danmaku] *)

(** The body of [while segment_index <= 100]. *)
Definition segment_body (cid segment_index : Z) (danmaku_list : list DanmakuElement)
    : M (loop_step (Z * list DanmakuElement)) :=
  response ← http_get (SegmentReq cid segment_index);
  match response with
  | Response status_code content =>
      if status_code =? 304 then mret (Break (segment_index, danmaku_list))
      else if negb (status_code =? 200) then mret (Break (segment_index, danmaku_list))
      else if len content =? 0 then mret (Break (segment_index, danmaku_list))
      else
        let segment_danmaku := decode_danmaku_response content in
        match segment_danmaku with
        | [] => mret (Break (segment_index, danmaku_list))
        | _ :: _ =>
            let old_count := len danmaku_list in
            danmaku_list ← merge_danmaku_in_place danmaku_list segment_danmaku;
            let new_count := len danmaku_list - old_count in
            if new_count =? 0 then mret (Break (segment_index, danmaku_list))
            else
              let segment_index := segment_index + 1 in
              _ ← sleep (1 # 2);
              mret (Continue (segment_index, danmaku_list))
        end
  | Raised => mret (Break (segment_index, danmaku_list))
  end.

Fixpoint segment_loop (fuel : nat) (cid segment_index : Z)
    (danmaku_list : list DanmakuElement) : M (list DanmakuElement) :=
  if segment_index <=? 100 then
    match fuel with
    | O => out_of_fuel
    | S fuel =>
        r ← segment_body cid segment_index danmaku_list;
        match r with
        | Continue (segment_index, danmaku_list) =>
            segment_loop fuel cid segment_index danmaku_list
        | Break (_, danmaku_list) => mret danmaku_list
        end
    end
  else mret danmaku_list.

(** The index starts at 1 and the loop runs while it is at most 100: a
    hundred iterations are enough ([get_segmented_danmaku_returns]). *)
Definition get_segmented_danmaku (cid : Z) : M (list DanmakuElement) :=
  segment_loop 100 cid 1 [].
(** *** [get_history_danmaku_js_style] *)

(** The variables the [while] loop carries. *)
Record history_state := mkHistory {
  current_date : datetime;
  first_date : Z;
  ldanmu : list DanmakuElement;
  aldanmu : list DanmakuElement
}.

Definition set_ldanmu (l : list DanmakuElement) (st : history_state) : history_state :=
  {| current_date := current_date st; first_date := first_date st;
     ldanmu := l; aldanmu := aldanmu st |}.

(** The new [first_date] (the source's [tfirstdate]). *)
Definition retarget (first_date min_ctime : Z) : Z :=
  if negb (first_date =? 0) && (first_date - min_ctime <? 86400)
  then min_ctime - 86400
  else min_ctime.

(** The request and what follows it inside [try]. Every exception raised
    there, by the transport or by [datetime.fromtimestamp], ends in
    [ldanmu = []] with the assignments made before it kept. *)
Definition history_query (cid : Z) (st : history_state) : M history_state :=
  response ← http_get (HistoryReq cid (date_of (current_date st)));
  match response with
  | Response status_code content =>
      if status_code =? 200 then
        if len content =? 0 then mret (set_ldanmu [] st)
        else
          let ldanmu := decode_danmaku_response content in
          match ldanmu with
          | d :: ds =>
              aldanmu ← merge_danmaku_in_place (aldanmu st) ldanmu;
              let min_ctime := min_ctime d ds in
              let first_date := retarget (first_date st) min_ctime in
              match fromtimestamp first_date with
              | Some current_date =>
                  mret {| current_date := current_date; first_date := first_date;
                          ldanmu := ldanmu; aldanmu := aldanmu |}
              | None =>
                  mret {| current_date := current_date st; first_date := first_date;
                          ldanmu := []; aldanmu := aldanmu |}
              end
          | [] => mret (set_ldanmu [] st)
          end
      else if status_code =? 412 then mret (set_ldanmu [] st)
      else mret (set_ldanmu [] st)
  | Raised => mret (set_ldanmu [] st)
  end.

(** The body of [while current_date >= start_date]. *)
Definition history_body (cid ondanmu : Z) (st : history_state)
    : M (loop_step history_state) :=
  _ ← (if negb (first_date st =? 0) then sleep 2 else mret ());
  st ← (if (first_date st =? 0) || dense ondanmu (ldanmu st)
        then history_query cid st
        else mret st);
  if sparse ondanmu (ldanmu st) then mret (Break st)
  else if first_date st =? 0 then
    mret (Continue {| current_date := current_date st - timedelta_days 1;
                      first_date := first_date st;
                      ldanmu := ldanmu st; aldanmu := aldanmu st |})
  else mret (Continue st).

Fixpoint history_loop (fuel : nat) (cid ondanmu : Z) (start_date : datetime)
    (st : history_state) : M (list DanmakuElement) :=
  if start_date <=? current_date st then
    match fuel with
    | O => out_of_fuel
    | S fuel =>
        r ← history_body cid ondanmu st;
        match r with
        | Continue st => history_loop fuel cid ondanmu start_date st
        | Break st => mret (aldanmu st)
        end
    end
  else mret (aldanmu st).

(** [now] is the value [datetime.now()] returns when the function reads
    it; [video_date = None] is Python's [None] (a [datetime] is always
    truthy). The loop has no bound of its own: [fuel] bounds the number
    of its iterations. *)
Definition get_history_danmaku_js_style (fuel : nat) (now : datetime) (cid : Z)
    (video_date : option datetime) (start_days end_days target_count : Z)
    : M (list DanmakuElement) :=
  match video_date with
  | None => mret []
  | Some video_date =>
      let ondanmu := target_count in
      let base_date := video_date in
      let current_date :=
        if negb (end_days =? -1) then now - timedelta_days 1
        else now - timedelta_days 1 in
      let start_date := base_date + timedelta_days start_days in
      history_loop fuel cid ondanmu start_date
        {| current_date := current_date; first_date := 0; ldanmu := []; aldanmu := [] |}
  end.

(** *** [get_complete_danmaku_js_style] *)

(** Step 4: the lists are merged into a fresh list with a fresh, local
    pool; per record the test and the two updates are those of
    [merge_one]. *)
Definition merge_all (all_danmaku_lists : list (list DanmakuElement))
    : list DanmakuElement :=
  (foldl (λ st danmaku_list, foldl merge_one st danmaku_list) ([], ∅) all_danmaku_lists).1.

(** [if l: all_danmaku_lists.append(l)] *)
Definition append_if_nonempty (all_danmaku_lists : list (list DanmakuElement))
    (l : list DanmakuElement) : list (list DanmakuElement) :=
  match l with
  | [] => all_danmaku_lists
  | _ :: _ => all_danmaku_lists ++ [l]
  end.

Definition get_complete_danmaku_js_style (fuel : nat) (now : datetime) (cid : Z)
    (video_date : option datetime) (start_days : Z) (end_days : option Z)
    : M (list DanmakuElement) :=
  let end_days :=
    match end_days with
    | None => if truthy video_date then 1 else -1
    | Some e => e
    end in
  '(maxlimit, current_danmaku) ← get_current_danmaku_info cid;
  let all_danmaku_lists := append_if_nonempty [] current_danmaku in
  segmented_danmaku ← get_segmented_danmaku cid;
  let all_danmaku_lists := append_if_nonempty all_danmaku_lists segmented_danmaku in
  all_danmaku_lists ←
    (if truthy video_date && (0 <? maxlimit) then
       history_danmaku ←
         get_history_danmaku_js_style fuel now cid video_date start_days end_days maxlimit;
       mret (append_if_nonempty all_danmaku_lists history_danmaku)
     else mret all_danmaku_lists);
  mret (merge_all all_danmaku_lists).

(** *** [save_danmaku_xml] and [main] *)

(** [danmaku_list.sort(key=lambda x: x.progress)], the first statement of
    [save_danmaku_xml]: the order in which the records are written.
    Python's sort is stable; so is this insertion sort. *)
Fixpoint insert_by_progress (x : DanmakuElement) (l : list DanmakuElement)
    : list DanmakuElement :=
  match l with
  | [] => [x]
  | y :: l' => if progress x <=? progress y then x :: l else y :: insert_by_progress x l'
  end.

Definition sort_by_progress (l : list DanmakuElement) : list DanmakuElement :=
  foldr insert_by_progress [] l.

End Crawl.

(** ** Notions the properties are stated with *)

(** The fingerprints of a list of records, as a set. *)
Definition fingerprints `{Platform} (l : list DanmakuElement) : gset string :=
  list_to_set (get_unique_id <$> l).

(** The records of [new_list] that a merge appends, given the pool the
    second loop of [merge_danmaku_in_place] starts from: those whose
    fingerprint is neither in that pool nor carried by an earlier record
    of [new_list]. *)
Fixpoint first_seen `{Platform} (pool : gset string) (new_list : list DanmakuElement)
    : list DanmakuElement :=
  match new_list with
  | [] => []
  | d :: new_list =>
      if decide (get_unique_id d ∈ pool) then first_seen pool new_list
      else d :: first_seen ({[get_unique_id d]} ∪ pool) new_list
  end.

(** A crawl session as far as the pool is concerned: accumulators are
    created empty and fed by merges only, all through the one pool of the
    session, which starts empty. *)
Inductive session_op :=
  | NewAccumulator
  | MergeInto (i : nat) (new_list : list DanmakuElement).

Definition run_op `{Platform} (st : list (list DanmakuElement) * gset string)
    (op : session_op) : list (list DanmakuElement) * gset string :=
  match op with
  | NewAccumulator => (st.1 ++ [[]], st.2)
  | MergeInto i new_list =>
      match st.1 !! i with
      | Some target_list =>
          let '(target_list, pool) := merge_pure target_list st.2 new_list in
          (<[i := target_list]> st.1, pool)
      | None => st
      end
  end.

Definition run_session `{Platform} (ops : list session_op)
    : list (list DanmakuElement) * gset string :=
  foldl run_op ([], ∅) ops.

(** ** The wire format, written down from its description

    A message is a sequence of fields; a field is a tag, the varint of
    [field_number * 8 + wire kind], followed by a varint (kind 0) or by a
    varint length and that many bytes (kind 2). *)

Definition byte_of (z : Z) : byte := default x00 (Byte.of_N (Z.to_N z)).

(** Seven bits per byte, low group first, the high bit set on every byte
    but the last. *)
Fixpoint encode_varint_go (fuel : nat) (n : Z) : list byte :=
  match fuel with
  | O => [byte_of n]
  | S fuel =>
      if n <? 128 then [byte_of n]
      else byte_of (n `mod` 128 + 128) :: encode_varint_go fuel (n / 128)
  end.

Definition encode_varint (n : Z) : list byte :=
  encode_varint_go (Z.to_nat (Z.log2 n)) n.

Inductive wire_field :=
  | WVarint (field_number value : Z)
  | WBytes (field_number : Z) (payload : list byte).

Definition encode_tag (field_number wire_type : Z) : list byte :=
  encode_varint (field_number * 8 + wire_type).

Definition encode_field (f : wire_field) : list byte :=
  match f with
  | WVarint n v => encode_tag n 0 ++ encode_varint v
  | WBytes n payload => encode_tag n 2 ++ encode_varint (len payload) ++ payload
  end.

Definition encode_message (fields : list wire_field) : list byte :=
  concat (encode_field <$> fields).

(** Field numbers and values are not negative. *)
Definition wf_field (f : wire_field) : Prop :=
  match f with
  | WVarint n v => 0 ≤ n ∧ 0 ≤ v
  | WBytes n _ => 0 ≤ n
  end.

(** ** A platform and records for the examples *)

(** A platform to evaluate the embedding on: the hash is an arbitrary
    polynomial one (Python's is seeded per process); the codec is UTF-8
    on 7-bit text, where strict and lenient decoding agree and give one
    code point per byte (strict decoding fails on any other byte, lenient
    decoding drops it: the examples keep to 7-bit text); the local zone is
    UTC, and the calendar runs over the years 1 to 9999 as [datetime]'s
    does. *)
Definition ascii_platform : Platform := {|
  py_hash := λ s, foldl (λ h c, h * 31 + Z.of_N c) 0 s;
  utf8_strict := λ bs,
    if forallb (λ b, byte_val b <? 128) bs then Some (Byte.to_N <$> bs) else None;
  utf8_ignore := λ bs, Byte.to_N <$> filter (λ b, byte_val b < 128) bs;
  fromtimestamp := λ t,
    if (-62135596800 <=? t) && (t <=? 253402300799) then Some (t * 1000000) else None
|}.

(** A record with the given offset and creation time and no text. *)
Definition record_at (progress ctime : Z) : DanmakuElement :=
  DanmakuElement_init {[ "progress" := PyInt progress; "ctime" := PyInt ctime ]}.

(** The sub-message of a record with the given offset and creation time,
    and a payload holding such records. *)
Definition record_bytes (progress ctime : Z) : list byte :=
  encode_message [WVarint 2 progress; WVarint 8 ctime].

Definition payload_of (records : list (Z * Z)) : list byte :=
  encode_message ((λ r, WBytes 1 (record_bytes r.1 r.2)) <$> records).

(** A server without state that answers every request alike. *)
Definition constant_server (res : http_result) (_ : unit) (_ : request)
    : http_result * unit := (res, ()).

(** A server that keeps a script of answers and gives them one by one,
    whatever is asked; once the script is used up it answers 304. *)
Definition scripted_server (script : list http_result) (_ : request)
    : http_result * list http_result :=
  match script with
  | [] => (Response 304 [], [])
  | res :: script => (res, script)
  end.

(** The trace of [n] rounds of the segment loop that went on, from
    index [i]. *)
Definition full_rounds (cid i : Z) (n : nat) : list event :=
  concat ((λ j, [EvGet (SegmentReq cid j); EvSleep (1 # 2)]) <$> seqZ i (Z.of_nat n)).

(** The records the probe of [get_current_danmaku_info] decodes (the
    source's [first_segment]), when it decodes any. *)
Definition probe_sample `{Platform} (res : http_result) : list DanmakuElement :=
  match res with
  | Response status_code content =>
      if (status_code =? 200) && (0 <? len content)
      then decode_danmaku_response content else []
  | Raised => []
  end.

(** What a session keeps true of its accumulators and its pool. *)
Definition session_inv `{Platform} (st : list (list DanmakuElement) * gset string) : Prop :=
  NoDup (get_unique_id <$> concat st.1) ∧ fingerprints (concat st.1) = st.2.

(** An iteration of the segment loop that stops: the list is as it was and
    the request is all that happened. *)
Definition segment_stops {Server : Type} (cid segment_index : Z)
    (L : list DanmakuElement) (s s' : session (Server:=Server))
    (r : loop_step (Z * list DanmakuElement)) : Prop :=
  r = Break (segment_index, L)
  ∧ trace s' = trace s ++ [EvGet (SegmentReq cid segment_index)].

(** What the decoders make of a field that is encoded in full.
    At the top level only field 1 of kind 2 counts, and only when its
    sub-message yields a dictionary. *)
Definition record_of_field `{Platform} (f : wire_field) : option DanmakuElement :=
  match f with
  | WBytes 1 payload => DanmakuElement_init <$> decode_danmaku_element payload
  | _ => None
  end.

(** Within a record a field sets the attribute its number is mapped to, a
    later field overriding an earlier one; other numbers leave the
    dictionary as it is. *)
Definition element_of_field `{Platform} (element : gmap string pyval) (f : wire_field)
    : gmap string pyval :=
  match f with
  | WVarint n v =>
      match field_map !! n with
      | Some key => <[key := PyInt v]> element
      | None => element
      end
  | WBytes n payload =>
      match string_map !! n with
      | Some key => <[key := PyStr (decode_string payload 0 (len payload))]> element
      | None => element
      end
  end.

(** A round that brings no record: the transport raised, the status is
    not 200, the payload is empty, or it decodes to no record. *)
Definition round_fails `{Platform} (res : http_result) : Prop :=
  match res with
  | Raised => True
  | Response status_code content =>
      status_code ≠ 200 ∨ content = [] ∨ decode_danmaku_response content = []
  end.

(** ** Notions of the further properties *)

(** The value a record gets for a numbered attribute: that of the last
    field with the number, when there is one. *)
Definition last_varint (n : Z) (fields : list wire_field) : option Z :=
  last (omap (λ f, match f with
                   | WVarint m v => if decide (m = n) then Some v else None
                   | WBytes _ _ => None
                   end) fields).

Definition last_bytes (n : Z) (fields : list wire_field) : option (list byte) :=
  last (omap (λ f, match f with
                   | WBytes m payload => if decide (m = n) then Some payload else None
                   | WVarint _ _ => None
                   end) fields).

(** What the record decoder stores: integers that are not negative under
    the keys of [field_map], strings under the keys of [string_map]. *)
Definition typed_element (d : gmap string pyval) : Prop :=
  ∀ key v, d !! key = Some v →
    match v with
    | PyInt z => 0 ≤ z ∧ ∃ n, field_map !! n = Some key
    | PyStr _ => ∃ n, string_map !! n = Some key
    end.

(** A string in which a character does not occur. *)
Fixpoint string_free (c : Ascii.ascii) (s : string) : Prop :=
  match s with
  | EmptyString => True
  | String a s => a ≠ c ∧ string_free c s
  end.


(** An accumulator and the pool after some merges into the accumulator:
    the list has grown at its end, by records with distinct fingerprints
    that the list and the pool did not have; the pool has only grown, and
    holds the fingerprints of the new records. *)
Definition grows `{Platform} (L : list DanmakuElement) (P : gset string)
    (L' : list DanmakuElement) (P' : gset string) : Prop :=
  ∃ more,
    L' = L ++ more
    ∧ NoDup (get_unique_id <$> more)
    ∧ (∀ d, d ∈ more → get_unique_id d ∉ fingerprints L ∪ P)
    ∧ P ⊆ P'
    ∧ fingerprints more ⊆ P'.



(** ** The command line of [main] *)

(** The part of [main] that reads [sys.argv]. The builtins [int] and
    [datetime.strptime(_, '%Y-%m-%d')] are parameters; [None] is their
    [ValueError]. [None] as a result is [sys.exit(1)]. *)
Section CommandLine.
Variable int_of_str : string → option Z.
Variable strptime : string → option datetime.

(** The [while i < len(args)] loop, on the arguments from [args[i]] on.
    With a single argument left every test [i + 1 < len(args)] fails and
    the [else] branch exits. *)
Fixpoint parse_args (args : list string)
    (video_date : option datetime) (start_days : Z) (end_days : option Z)
    : option (option datetime * Z * option Z) :=
  match args with
  | [] => Some (video_date, start_days, end_days)
  | [_] => None
  | arg :: value :: args =>
      if decide (arg = "--publish-date") then
        match strptime value with
        | Some video_date => parse_args args (Some video_date) start_days end_days
        | None => None
        end
      else if decide (arg = "--start-days") then
        match int_of_str value with
        | Some start_days => parse_args args video_date start_days end_days
        | None => None
        end
      else if decide (arg = "--end-days") then
        match int_of_str value with
        | Some end_days => parse_args args video_date start_days (Some end_days)
        | None => None
        end
      else None
  end.

(** [main] up to the call of the downloader: the program name, the cid
    and the options. *)
Definition parse_command_line (argv : list string)
    : option (Z * option datetime * Z * option Z) :=
  match argv with
  | [] | [_] => None
  | _ :: cid :: args =>
      match int_of_str cid with
      | Some cid =>
          match parse_args args None 0 None with
          | Some (video_date, start_days, end_days) =>
              Some (cid, video_date, start_days, end_days)
          | None => None
          end
      | None => None
      end
  end.
End CommandLine.

(** * Properties *)

(** ** The decoder *)

Lemma len_nonneg {A} (l : list A) : 0 ≤ len l.
Proof. unfold len. lia. Qed.

Lemma len_app {A} (l k : list A) : len (l ++ k) = len l + len k.
Proof. unfold len. rewrite length_app. lia. Qed.

Lemma len_nil_iff {A} (l : list A) : len l = 0 ↔ l = [].
Proof. unfold len. destruct l; simpl; split; intros; try done; lia. Qed.

Lemma byte_val_range (b : byte) : 0 ≤ byte_val b < 256.
Proof.
  unfold byte_val. pose proof (Byte.to_N_bounded b). lia.
Qed.

(** [decode_varint] never moves backwards and never runs past the end. *)
Lemma varint_loop_pos rest result shift pos :
  pos ≤ (varint_loop rest result shift pos).2 ≤ pos + len rest.
Proof.
  revert result shift pos.
  induction rest as [|b rest IH]; intros result shift pos; simpl.
  - unfold len; simpl; lia.
  - destruct (Z.land (byte_val b) 128 =? 0); simpl.
    + unfold len; simpl; lia.
    + specialize (IH (Z.lor result (Z.shiftl (Z.land (byte_val b) 127) shift))
                     (shift + 7) (pos + 1)).
      unfold len in *; simpl; lia.
Qed.

Lemma varint_loop_progress b rest result shift pos :
  pos < (varint_loop (b :: rest) result shift pos).2.
Proof.
  simpl. destruct (Z.land (byte_val b) 128 =? 0); simpl; [lia|].
  pose proof (varint_loop_pos rest
    (Z.lor result (Z.shiftl (Z.land (byte_val b) 127) shift)) (shift + 7) (pos + 1)).
  lia.
Qed.

Lemma varint_loop_nonneg rest result shift pos :
  0 ≤ result → 0 ≤ (varint_loop rest result shift pos).1.
Proof.
  revert result shift pos.
  induction rest as [|b rest IH]; intros result shift pos Hr; simpl; [done|].
  assert (0 ≤ Z.lor result (Z.shiftl (Z.land (byte_val b) 127) shift)) as Hn.
  { apply Z.lor_nonneg. split; [done|].
    apply Z.shiftl_nonneg, Z.land_nonneg. right. lia. }
  destruct (Z.land (byte_val b) 128 =? 0); simpl; [done|]. by apply IH.
Qed.

Lemma decode_varint_nonneg data offset : 0 ≤ (decode_varint data offset).1.
Proof. by apply varint_loop_nonneg. Qed.

Lemma decode_varint_pos data offset :
  0 ≤ offset ≤ len data →
  offset ≤ (decode_varint data offset).2 ≤ len data.
Proof.
  intros Ho. unfold decode_varint.
  pose proof (varint_loop_pos (drop (Z.to_nat offset) data) 0 0 offset) as Hp.
  unfold len in *. rewrite length_drop in Hp. lia.
Qed.

Lemma decode_varint_progress data offset :
  0 ≤ offset < len data →
  offset < (decode_varint data offset).2 ≤ len data.
Proof.
  intros Ho. split; [|apply decode_varint_pos; lia].
  unfold decode_varint.
  destruct (drop (Z.to_nat offset) data) as [|b rest] eqn:Hd.
  - apply (f_equal length) in Hd. rewrite length_drop in Hd.
    unfold len in Ho. simpl in Hd. lia.
  - apply varint_loop_progress.
Qed.

Section DecoderTermination.
Context `{Platform}.

(** A run of the body of either decoding loop leaves [pos] strictly
    larger, and not negative. *)
Lemma element_step_progress data pos element pos' element' :
  0 ≤ pos < len data →
  element_step data pos element = Some (pos', element') →
  pos < pos'.
Proof.
  intros Hpos. unfold element_step.
  pose proof (decode_varint_progress data pos Hpos) as Ht.
  destruct (decode_varint data pos) as [field_tag p1]; simpl in Ht.
  pose proof (decode_varint_pos data p1 ltac:(lia)) as Hv.
  pose proof (decode_varint_nonneg data p1) as Hn.
  destruct (decode_varint data p1) as [v p2]; simpl in Hv, Hn.
  destruct (Z.land field_tag 7 =? 0).
  - destruct (field_map !! _); intros [= <- <-]; lia.
  - destruct (Z.land field_tag 7 =? 2); [|done].
    destruct (string_map !! _); intros [= <- <-]; lia.
Qed.

Lemma response_step_progress data pos danmaku_list pos' danmaku_list' :
  0 ≤ pos < len data →
  response_step data pos danmaku_list = Continue (pos', danmaku_list') →
  pos < pos'.
Proof.
  intros Hpos. unfold response_step.
  pose proof (decode_varint_progress data pos Hpos) as Ht.
  destruct (decode_varint data pos) as [field_tag p1]; simpl in Ht.
  pose proof (decode_varint_pos data p1 ltac:(lia)) as Hv.
  pose proof (decode_varint_nonneg data p1) as Hn.
  destruct (decode_varint data p1) as [v p2]; simpl in Hv, Hn.
  destruct ((Z.shiftr field_tag 3 =? 1) && (Z.land field_tag 7 =? 2)).
  - intros [= <- <-]; lia.
  - destruct (Z.land field_tag 7 =? 0); [intros [= <- <-]; lia|].
    destruct (Z.land field_tag 7 =? 2); [intros [= <- <-]; lia|done].
Qed.

(** The loops end: fuel for the bytes not yet read is enough. *)
Lemma element_loop_total fuel data pos element :
  0 ≤ pos → len data - pos ≤ Z.of_nat fuel →
  is_Some (element_loop fuel data pos element).
Proof.
  revert pos element.
  induction fuel as [|fuel IH]; intros pos element Hpos Hfuel; simpl.
  - destruct (pos <? len data) eqn:Hlt; [lia|by eexists].
  - destruct (pos <? len data) eqn:Hlt; [|by eexists].
    apply Z.ltb_lt in Hlt.
    destruct (element_step data pos element) as [[pos' element']|] eqn:Hs; [|by eexists].
    apply element_step_progress in Hs; [|lia].
    apply IH; lia.
Qed.

Lemma response_loop_total_from fuel data pos danmaku_list :
  0 ≤ pos → len data - pos ≤ Z.of_nat fuel →
  is_Some (response_loop fuel data pos danmaku_list).
Proof.
  revert pos danmaku_list.
  induction fuel as [|fuel IH]; intros pos danmaku_list Hpos Hfuel; simpl.
  - destruct (pos <? len data) eqn:Hlt; [lia|by eexists].
  - destruct (pos <? len data) eqn:Hlt; [|by eexists].
    apply Z.ltb_lt in Hlt.
    destruct (response_step data pos danmaku_list) as [[pos' l']|[pos' l']] eqn:Hs;
      [|by eexists].
    apply response_step_progress in Hs; [|lia].
    apply IH; lia.
Qed.

Lemma response_loop_total data :
  is_Some (response_loop (length data) data 0 []).
Proof. apply response_loop_total_from; unfold len; lia. Qed.

(** More fuel does not change a result. *)
Lemma element_loop_fuel_mono fuel fuel' data pos element r :
  (fuel ≤ fuel')%nat →
  element_loop fuel data pos element = Some r →
  element_loop fuel' data pos element = Some r.
Proof.
  revert fuel' pos element.
  induction fuel as [|fuel IH]; intros fuel' pos element Hle; simpl.
  - destruct (pos <? len data) eqn:Hlt; [done|].
    intros [= <-]. destruct fuel'; simpl; by rewrite Hlt.
  - destruct fuel' as [|fuel']; [lia|]. simpl.
    destruct (pos <? len data); [|done].
    destruct (element_step data pos element) as [[pos' element']|]; [|done].
    apply IH. lia.
Qed.

Lemma response_loop_fuel_mono fuel fuel' data pos danmaku_list r :
  (fuel ≤ fuel')%nat →
  response_loop fuel data pos danmaku_list = Some r →
  response_loop fuel' data pos danmaku_list = Some r.
Proof.
  revert fuel' pos danmaku_list.
  induction fuel as [|fuel IH]; intros fuel' pos danmaku_list Hle; simpl.
  - destruct (pos <? len data) eqn:Hlt; [done|].
    intros [= <-]. destruct fuel'; simpl; by rewrite Hlt.
  - destruct fuel' as [|fuel']; [lia|]. simpl.
    destruct (pos <? len data); [|done].
    destruct (response_step data pos danmaku_list) as [[pos' l']|[pos' l']]; [|done].
    apply IH. lia.
Qed.
End DecoderTermination.

(** ** The merge *)

Section Merge.
Context `{Platform}.

Lemma fingerprints_nil : fingerprints [] = ∅.
Proof. done. Qed.

Lemma fingerprints_app l k : fingerprints (l ++ k) = fingerprints l ∪ fingerprints k.
Proof. unfold fingerprints. rewrite fmap_app, list_to_set_app_L. done. Qed.

Lemma fingerprints_cons d l :
  fingerprints (d :: l) = {[get_unique_id d]} ∪ fingerprints l.
Proof. done. Qed.

Lemma elem_of_fingerprints u l :
  u ∈ fingerprints l ↔ ∃ d, d ∈ l ∧ get_unique_id d = u.
Proof.
  unfold fingerprints. rewrite elem_of_list_to_set, list_elem_of_fmap.
  naive_solver.
Qed.

(** The first loop of the merge. *)
Lemma pool_init (pool : gset string) target_list :
  foldl (λ p danmaku, {[get_unique_id danmaku]} ∪ p) pool target_list
  = fingerprints target_list ∪ pool.
Proof.
  revert pool. induction target_list as [|d l IH]; intros pool; simpl.
  - rewrite fingerprints_nil. set_solver.
  - rewrite IH, fingerprints_cons. set_solver.
Qed.

(** The second loop of the merge. *)
Lemma foldl_merge_one target_list (pool : gset string) new_list :
  foldl merge_one (target_list, pool) new_list
  = (target_list ++ first_seen pool new_list, fingerprints new_list ∪ pool).
Proof.
  revert target_list pool.
  induction new_list as [|d l IH]; intros target_list pool; simpl.
  - rewrite app_nil_r, fingerprints_nil. f_equal. set_solver.
  - unfold merge_one at 2; simpl. rewrite fingerprints_cons.
    destruct (decide (get_unique_id d ∈ pool)) as [Hin|Hout].
    + rewrite IH. f_equal. set_solver.
    + rewrite IH, <-app_assoc. simpl. f_equal. set_solver.
Qed.

Lemma merge_pure_eq target_list (pool : gset string) new_list :
  merge_pure target_list pool new_list
  = (target_list ++ first_seen (fingerprints target_list ∪ pool) new_list,
     fingerprints new_list ∪ fingerprints target_list ∪ pool).
Proof.
  unfold merge_pure. rewrite pool_init, foldl_merge_one. f_equal. set_solver.
Qed.


Lemma first_seen_fresh (pool : gset string) new_list d :
  d ∈ first_seen pool new_list → get_unique_id d ∉ pool.
Proof.
  revert pool. induction new_list as [|d' l IH]; intros pool; simpl.
  - by intros ?%elem_of_nil.
  - destruct (decide _) as [Hin|Hout]; [by apply IH|].
    intros [->|Hd]%elem_of_cons; [done|].
    apply IH in Hd. set_solver.
Qed.

Lemma first_seen_NoDup (pool : gset string) new_list :
  NoDup (get_unique_id <$> first_seen pool new_list).
Proof.
  revert pool. induction new_list as [|d l IH]; intros pool; simpl.
  - constructor.
  - destruct (decide _) as [Hin|Hout]; [apply IH|].
    rewrite fmap_cons. constructor; [|apply IH].
    intros (d' & Heq & Hd')%list_elem_of_fmap.
    apply first_seen_fresh in Hd'. rewrite <-Heq in Hd'. set_solver.
Qed.

Lemma first_seen_fingerprints (pool : gset string) new_list :
  fingerprints (first_seen pool new_list) ∪ pool = fingerprints new_list ∪ pool.
Proof.
  revert pool. induction new_list as [|d l IH]; intros pool; simpl; [done|].
  rewrite fingerprints_cons.
  destruct (decide _) as [Hin|Hout].
  - rewrite IH. set_solver.
  - rewrite fingerprints_cons. specialize (IH ({[get_unique_id d]} ∪ pool)).
    trans (fingerprints (first_seen ({[get_unique_id d]} ∪ pool) l)
           ∪ ({[get_unique_id d]} ∪ pool)); [clear; set_solver|].
    rewrite IH. clear. set_solver.
Qed.

(** Nothing is appended from a list whose fingerprints are all known. *)
Lemma first_seen_known (pool : gset string) new_list :
  fingerprints new_list ⊆ pool → first_seen pool new_list = [].
Proof.
  revert pool. induction new_list as [|d l IH]; intros pool Hsub; simpl; [done|].
  rewrite fingerprints_cons in Hsub.
  rewrite decide_True by set_solver. apply IH. set_solver.
Qed.

End Merge.


(** ** The pool of a session *)

Section SessionPool.
Context `{Platform}.

Lemma run_op_inv st op : session_inv st → session_inv (run_op st op).
Proof.
  destruct st as [accs P]. intros [Hnd HP]; simpl in *.
  destruct op as [|i new_list]; simpl.
  - split; simpl; by rewrite concat_app, app_nil_r.
  - destruct (accs !! i) as [L|] eqn:Hi; [|done].
    rewrite merge_pure_eq.
    set (added := first_seen (fingerprints L ∪ P) new_list).
    rewrite insert_take_drop by (by eapply lookup_lt_Some).
    rewrite <-(take_drop_middle accs i L Hi) in Hnd, HP.
    revert Hnd HP.
    generalize (take i accs) (drop (S i) accs). intros a1 a2.
    rewrite !concat_app, !concat_cons, !fmap_app, !fingerprints_app.
    intros Hnd HP. unfold session_inv; simpl.
    rewrite !concat_app, !concat_cons, !fmap_app, !fingerprints_app.
    assert (fingerprints L ∪ P = P) as HLP by set_solver.
    pose proof (first_seen_fingerprints (fingerprints L ∪ P) new_list) as Hfp.
    fold added in Hfp. rewrite HLP in Hfp.
    split.
    2: { trans (fingerprints added ∪ P).
         - rewrite <-HP. clear. set_solver.
         - rewrite Hfp, <-(assoc_L (∪)), HLP. done. }
    assert (∀ u, u ∈ get_unique_id <$> added → u ∉ P) as Hfresh.
    { intros u (d & -> & Hd)%list_elem_of_fmap.
      apply first_seen_fresh in Hd. set_solver. }
    assert ((get_unique_id <$> concat a1) ++
              ((get_unique_id <$> L) ++ (get_unique_id <$> added)) ++
              (get_unique_id <$> concat a2)
            ≡ₚ ((get_unique_id <$> concat a1) ++ (get_unique_id <$> L) ++
                (get_unique_id <$> concat a2)) ++ (get_unique_id <$> added)) as ->.
    { rewrite <-!app_assoc. do 2 apply Permutation_app_head.
      apply Permutation_app_comm. }
    apply NoDup_app. split; [done|]. split; [|apply first_seen_NoDup].
    intros u Hu Hadd. apply (Hfresh u Hadd). rewrite <-HP.
    rewrite <-!fmap_app in Hu. rewrite <-!fingerprints_app.
    unfold fingerprints. by apply elem_of_list_to_set.
Qed.

Lemma run_session_inv ops : session_inv (run_session ops).
Proof.
  unfold run_session.
  assert (session_inv ([], ∅)) as H0 by (split; [constructor|done]).
  revert H0. generalize (([], ∅) : list (list DanmakuElement) * gset string).
  induction ops as [|op ops IH]; intros st Hst; simpl; [done|].
  by apply IH, run_op_inv.
Qed.

Lemma NoDup_concat_elem {A} (ls : list (list A)) l :
  NoDup (concat ls) → l ∈ ls → NoDup l.
Proof.
  intros Hnd (i & Hi)%list_elem_of_lookup.
  rewrite <-(take_drop_middle ls i l Hi), !concat_app, concat_cons in Hnd.
  apply NoDup_app in Hnd as (_ & _ & Hnd).
  by apply NoDup_app in Hnd as (? & _ & _).
Qed.

Lemma length_concat_elem {A} (ls : list (list A)) l :
  l ∈ ls → (length l ≤ length (concat ls))%nat.
Proof.
  intros (i & Hi)%list_elem_of_lookup.
  rewrite <-(take_drop_middle ls i l Hi), !concat_app, concat_cons, !length_app. lia.
Qed.
End SessionPool.

(** C1 as stated fails: the pool is shared. With a first accumulator
    holding one record, a second accumulator fed one record with another
    fingerprint has one element while the pool has two. *)
Lemma shared_pool_breaks_size_equality :
  ∃ L, L ∈ (run_session (H:=ascii_platform)
              [NewAccumulator; MergeInto 0 [record_at 1000 0];
               NewAccumulator; MergeInto 1 [record_at 2000 0]]).1
       ∧ length L ≠ size (run_session (H:=ascii_platform)
              [NewAccumulator; MergeInto 0 [record_at 1000 0];
               NewAccumulator; MergeInto 1 [record_at 2000 0]]).2.
Proof.
  exists [record_at 2000 0]. split.
  - vm_compute. apply list_elem_of_In. right. left. reflexivity.
  - vm_compute. discriminate.
Qed.

(** C1, amended. In a session whose accumulators are created empty and fed
    by merges only, through the one pool of the session: no two elements
    of an accumulator share a fingerprint, the fingerprints of every
    accumulator are in the pool, and the pool has exactly as many
    fingerprints as all accumulators together have elements; so an
    accumulator is never longer than the pool, and as long as the session
    has a single accumulator its length is the size of the pool. *)
Theorem shared_pool_invariant `{Platform} (ops : list session_op) :
  (∀ L, L ∈ (run_session ops).1 →
     NoDup (get_unique_id <$> L)
     ∧ fingerprints L ⊆ (run_session ops).2
     ∧ (length L ≤ size (run_session ops).2)%nat)
  ∧ size (run_session ops).2 = length (concat (run_session ops).1)
  ∧ (∀ L, (run_session ops).1 = [L] → length L = size (run_session ops).2).
Proof.
  destruct (run_session_inv ops) as [Hnd HP].
  assert (size (run_session ops).2 = length (concat (run_session ops).1)) as Hsize.
  { rewrite <-HP. unfold fingerprints.
    rewrite size_list_to_set by done. by rewrite length_fmap. }
  split; [|split; [done|]].
  - intros L HL. split; [|split].
    + apply list_elem_of_lookup in HL as [i Hi].
      rewrite <-(take_drop_middle _ _ _ Hi) in Hnd.
      rewrite concat_app, concat_cons, !fmap_app in Hnd.
      apply NoDup_app in Hnd as (_ & _ & Hnd).
      by apply NoDup_app in Hnd as (? & _ & _).
    + rewrite <-HP. intros u (d & Hd & <-)%elem_of_fingerprints.
      apply elem_of_fingerprints. exists d. split; [|done].
      apply list_elem_of_In, in_concat. exists L.
      split; by apply list_elem_of_In.
    + rewrite Hsize. by apply length_concat_elem.
  - intros L HL. rewrite Hsize, HL. simpl. by rewrite app_nil_r.
Qed.

(** ** The acquisition loops *)

Lemma dense_iff ondanmu (ldanmu : list DanmakuElement) :
  dense ondanmu ldanmu = true ↔ Z.min ondanmu 5000 ≤ 2 * len ldanmu.
Proof.
  unfold dense. rewrite Qle_bool_iff. unfold Qle, Qmult, inject_Z; simpl. lia.
Qed.

Lemma sparse_iff ondanmu (ldanmu : list DanmakuElement) :
  sparse ondanmu ldanmu = true ↔ 2 * len ldanmu < Z.min ondanmu 5000.
Proof.
  unfold sparse. rewrite negb_true_iff, <-not_true_iff_false.
  fold (dense ondanmu ldanmu). rewrite dense_iff. lia.
Qed.

Lemma sparse_dense ondanmu ldanmu : sparse ondanmu ldanmu = negb (dense ondanmu ldanmu).
Proof. done. Qed.



Section Loops.
Context `{Platform} {Server : Type} (serve : Server → request → http_result * Server).

#[local] Abbreviation session := (session (Server:=Server)).

Lemma http_get_eq r (s : session) :
  http_get serve r s
  = Some ((serve (srv s) r).1,
          {| srv := (serve (srv s) r).2; id_pool := id_pool s;
             trace := trace s ++ [EvGet r] |}).
Proof. unfold http_get. by destruct (serve (srv s) r). Qed.

Lemma merge_danmaku_in_place_eq target_list new_list (s : session) :
  merge_danmaku_in_place target_list new_list s
  = Some (target_list ++ first_seen (fingerprints target_list ∪ id_pool s) new_list,
          {| srv := srv s;
             id_pool := fingerprints new_list ∪ fingerprints target_list ∪ id_pool s;
             trace := trace s |}).
Proof. unfold merge_danmaku_in_place. by rewrite merge_pure_eq. Qed.

Lemma requests_app t1 t2 : requests (t1 ++ t2) = requests t1 ++ requests t2.
Proof. unfold requests. apply omap_app. Qed.

(** What a history request leaves behind, in every case: one request in
    the trace, for the calendar day of [current_date]. *)
Lemma history_query_trace cid st (s : session) :
  ∃ st' s', history_query serve cid st s = Some (st', s')
    ∧ trace s' = trace s ++ [EvGet (HistoryReq cid (date_of (current_date st)))]
    ∧ srv s' = (serve (srv s) (HistoryReq cid (date_of (current_date st)))).2.
Proof.
  unfold history_query, mbind, M_bind. rewrite http_get_eq.
  destruct (serve (srv s) _) as [[status content|] srv']; simpl;
    [|by eexists _, _].
  destruct (status =? 200); [|destruct (status =? 412); by eexists _, _].
  destruct (len content =? 0); [by eexists _, _|].
  destruct (decode_danmaku_response content) as [|d ds]; [by eexists _, _|].
  rewrite merge_danmaku_in_place_eq; simpl.
  destruct (fromtimestamp _); by eexists _, _.
Qed.
End Loops.





Section HistoryLoop.
Context `{Platform} {Server : Type} (serve : Server → request → http_result * Server).

#[local] Abbreviation session := (session (Server:=Server)).

(** One iteration of the history loop, in full. *)
Lemma history_body_cases cid ondanmu st (s : session) :
  ∃ r s', history_body serve cid ondanmu st s = Some (r, s')
    ∧ requests (trace s')
      = requests (trace s) ++
        (if (first_date st =? 0) || dense ondanmu (ldanmu st)
         then [HistoryReq cid (date_of (current_date st))] else [])
    ∧ match r with
      | Break st' => sparse ondanmu (ldanmu st') = true
      | Continue st' => sparse ondanmu (ldanmu st') = false
      end
    ∧ ((first_date st =? 0) || dense ondanmu (ldanmu st) = false →
       r = Break st)
    ∧ ((first_date st =? 0) || dense ondanmu (ldanmu st) = true →
       ∃ st1, history_query serve cid st
                {| srv := srv s; id_pool := id_pool s;
                   trace := trace s ++
                     (if first_date st =? 0 then [] else [EvSleep 2]) |}
              = Some (st1, s')
              ∧ ldanmu st1 = match r with Break st' | Continue st' => ldanmu st' end
              ∧ aldanmu st1 = match r with Break st' | Continue st' => aldanmu st' end).
Proof.
  unfold history_body, mbind, M_bind.
  set (s0 := {| srv := srv s; id_pool := id_pool s;
                trace := trace s ++ (if first_date st =? 0 then [] else [EvSleep 2]) |}).
  assert ((if negb (first_date st =? 0) then sleep 2 else mret ()) s = Some ((), s0)) as ->.
  { unfold s0. destruct (first_date st =? 0); simpl.
    - unfold mret, M_ret. rewrite app_nil_r. by destruct s.
    - done. }
  assert (requests (trace s0) = requests (trace s)) as Hreq0.
  { unfold s0; simpl. rewrite requests_app.
    destruct (first_date st =? 0); simpl; by rewrite app_nil_r. }
  destruct ((first_date st =? 0) || dense ondanmu (ldanmu st)) eqn:Hgate.
  - destruct (history_query_trace serve cid st s0) as (st1 & s1 & Hq & Ht & _).
    rewrite Hq.
    assert (requests (trace s1)
            = requests (trace s) ++ [HistoryReq cid (date_of (current_date st))]) as Hreq.
    { rewrite Ht, requests_app, Hreq0. done. }
    destruct (sparse ondanmu (ldanmu st1)) eqn:Hsp.
    + eexists _, _. split; [done|]. split; [done|]. split; [done|].
      split; [done|]. intros _. by exists st1.
    + destruct (first_date st1 =? 0); eexists _, _;
        (split; [done|]; split; [done|]; split; [done|]; split; [done|]);
        intros _; by exists st1.
  - unfold mret at 1, M_ret at 1.
    apply orb_false_iff in Hgate as [Hfd Hdense].
    rewrite sparse_dense, Hdense. simpl.
    eexists _, _. split; [done|]. split; [by rewrite app_nil_r|].
    split; [by rewrite sparse_dense, Hdense|]. split; [done|]. done.
Qed.
End HistoryLoop.

(** C3. In an iteration of the history loop a request is issued exactly
    when the boundary epoch is zero or the last batch is dense; the
    iteration stops the loop exactly when the batch it ends with is below
    the threshold; an iteration that issues no request stops the loop, and
    an iteration after which the loop goes on leaves the gate open, so no
    two iterations in a row pass without a request; and when the loop is
    entered and the first request leaves a batch below the threshold, the
    fetch returns after exactly that one request, for yesterday's date. *)
Theorem history_gate_and_density_stop `{Platform} {Server : Type}
    (serve : Server → request → http_result * Server)
    (cid ondanmu : Z) (st : history_state) (s : session (Server:=Server))
    (fuel : nat) (now video_date : datetime) (start_days end_days : Z) :
  (∃ r s', history_body serve cid ondanmu st s = Some (r, s')
     ∧ requests (trace s')
       = requests (trace s) ++
         (if (first_date st =? 0) || dense ondanmu (ldanmu st)
          then [HistoryReq cid (date_of (current_date st))] else [])
     ∧ match r with
       | Break st' => sparse ondanmu (ldanmu st') = true
       | Continue st' => sparse ondanmu (ldanmu st') = false
       end
     ∧ ((first_date st =? 0) || dense ondanmu (ldanmu st) = false → r = Break st)
     ∧ (∀ st', r = Continue st' →
          (first_date st' =? 0) || dense ondanmu (ldanmu st') = true))
  ∧ (video_date + timedelta_days start_days ≤ now - timedelta_days 1 →
     (∀ st1 s1,
        history_query serve cid
          {| current_date := now - timedelta_days 1; first_date := 0;
             ldanmu := []; aldanmu := [] |} s = Some (st1, s1) →
        sparse ondanmu (ldanmu st1) = true) →
     ∃ L s',
       get_history_danmaku_js_style serve (S fuel) now cid (Some video_date)
         start_days end_days ondanmu s = Some (L, s')
       ∧ requests (trace s')
         = requests (trace s) ++ [HistoryReq cid (date_of (now - timedelta_days 1))]).
Proof.
  split.
  - destruct (history_body_cases serve cid ondanmu st s)
      as (r & s' & Hb & Hreq & Hr & Hclosed & _).
    exists r, s'. split; [done|]. split; [done|]. split; [done|]. split; [done|].
    intros st' ->. rewrite sparse_dense in Hr. apply negb_false_iff in Hr.
    rewrite Hr. apply orb_true_r.
  - intros Hentered Hsparse.
    unfold get_history_danmaku_js_style.
    assert ((if negb (end_days =? -1) then now - timedelta_days 1
             else now - timedelta_days 1) = now - timedelta_days 1) as ->
      by (by destruct (negb _)).
    set (st0 := {| current_date := now - timedelta_days 1; first_date := 0;
                   ldanmu := []; aldanmu := [] |}) in *.
    simpl. unfold mbind, M_bind.
    assert ((video_date + timedelta_days start_days <=? now - timedelta_days 1) = true)
      as -> by (by apply Z.leb_le).
    destruct (history_body_cases serve cid ondanmu st0 s)
      as (r & s' & Hb & Hreq & Hr & _ & Hopen).
    rewrite Hb. simpl in Hreq, Hopen.
    destruct (Hopen eq_refl) as (st1 & Hq & Hl & _).
    simpl in Hq. rewrite app_nil_r in Hq.
    assert ({| srv := srv s; id_pool := id_pool s; trace := trace s |} = s) as Hs
      by (by destruct s).
    rewrite Hs in Hq. apply Hsparse in Hq.
    destruct r as [st'|st'].
    + rewrite Hl in Hq. congruence.
    + eexists _, _. split; [done|]. done.
Qed.

Lemma history_gate_and_density_stop_witness :
  ∃ L s',
    get_history_danmaku_js_style (H:=ascii_platform)
      (constant_server (Response 200 (payload_of [(1000, 1700000000)])))
      1 1700100000000000 42 (Some 0) 0 1 5000
      {| srv := (); id_pool := ∅; trace := [] |} = Some (L, s')
    ∧ requests (trace s') = [HistoryReq 42 19676].
Proof.
  destruct (history_gate_and_density_stop (H:=ascii_platform)
    (constant_server (Response 200 (payload_of [(1000, 1700000000)])))
    42 5000
    {| current_date := 0; first_date := 0; ldanmu := []; aldanmu := [] |}
    {| srv := (); id_pool := ∅; trace := [] |}
    0 1700100000000000 0 0 1) as [_ Hone].
  destruct Hone as (L & s' & HL & Hreq).
  - vm_compute. discriminate.
  - intros st1 s1 Hq. vm_compute in Hq. injection Hq as <- <-. reflexivity.
  - exists L, s'. split; [exact HL|]. rewrite Hreq. reflexivity.
Defined.

(** C10. The history fetch does not depend on [end_days]: for any two
    values the outcome (result, requests, final state) is the same, and so
    is the outcome of the orchestrator, whether the argument is given or
    left to its default. *)
Theorem history_independent_of_end_days `{Platform} {Server : Type}
    (serve : Server → request → http_result * Server)
    (fuel : nat) (now : datetime) (cid : Z) (video_date : option datetime)
    (start_days target_count e1 e2 : Z) (s : session (Server:=Server)) :
  get_history_danmaku_js_style serve fuel now cid video_date start_days e1 target_count s
  = get_history_danmaku_js_style serve fuel now cid video_date start_days e2 target_count s
  ∧ get_complete_danmaku_js_style serve fuel now cid video_date start_days (Some e1) s
    = get_complete_danmaku_js_style serve fuel now cid video_date start_days (Some e2) s
  ∧ get_complete_danmaku_js_style serve fuel now cid video_date start_days None s
    = get_complete_danmaku_js_style serve fuel now cid video_date start_days (Some e1) s.
Proof.
  assert (∀ tc a b s',
    get_history_danmaku_js_style serve fuel now cid video_date start_days a tc s'
    = get_history_danmaku_js_style serve fuel now cid video_date start_days b tc s')
    as Hh.
  { intros tc a b s'. unfold get_history_danmaku_js_style.
    destruct video_date; [|done].
    by destruct (negb (a =? -1)), (negb (b =? -1)). }
  assert (∀ a b,
    get_complete_danmaku_js_style serve fuel now cid video_date start_days a s
    = get_complete_danmaku_js_style serve fuel now cid video_date start_days b s)
    as Hc.
  { intros a b. unfold get_complete_danmaku_js_style, mbind, M_bind.
    destruct (get_current_danmaku_info serve cid s) as [[[maxlimit cur] s1]|]; [|done].
    destruct (get_segmented_danmaku serve cid s1) as [[seg s2]|]; [|done].
    destruct (truthy video_date && (0 <? maxlimit)); [|done].
    by rewrite (Hh maxlimit _ (match b with Some e => e
                                | None => if truthy video_date then 1 else -1 end)). }
  split; [apply Hh|]. split; apply Hc.
Qed.

Lemma first_seen_nil_iff `{Platform} (pool : gset string) new_list :
  first_seen pool new_list = [] ↔ fingerprints new_list ⊆ pool.
Proof.
  split; [|apply first_seen_known].
  intros Hnil. pose proof (first_seen_fingerprints pool new_list) as Hfp.
  rewrite Hnil, fingerprints_nil in Hfp. set_solver.
Qed.

Lemma requests_full_rounds cid i n :
  requests (full_rounds cid i n) = SegmentReq cid <$> seqZ i (Z.of_nat n).
Proof.
  unfold full_rounds. revert i.
  induction n as [|n IH]; intros i; [done|].
  rewrite Nat2Z.inj_succ, seqZ_cons by lia.
  replace (Z.pred (Z.succ (Z.of_nat n))) with (Z.of_nat n) by lia.
  rewrite !fmap_cons, concat_cons, requests_app, IH. done.
Qed.

Lemma full_rounds_S cid i n :
  full_rounds cid i (S n)
  = [EvGet (SegmentReq cid i); EvSleep (1 # 2)] ++ full_rounds cid (i + 1) n.
Proof.
  unfold full_rounds. rewrite Nat2Z.inj_succ, seqZ_cons by lia.
  replace (Z.pred (Z.succ (Z.of_nat n))) with (Z.of_nat n) by lia.
  replace (Z.succ i) with (i + 1) by lia. done.
Qed.

#[local] Arguments first_seen : simpl never.

Section SegmentLoop.
Context `{Platform} {Server : Type} (serve : Server → request → http_result * Server).

#[local] Abbreviation session := (session (Server:=Server)).

Lemma segment_body_cases cid segment_index L (s : session) :
  ∃ r s', segment_body serve cid segment_index L s = Some (r, s')
    ∧ srv s' = (serve (srv s) (SegmentReq cid segment_index)).2
    ∧ match (serve (srv s) (SegmentReq cid segment_index)).1 with
      | Raised => segment_stops cid segment_index L s s' r ∧ id_pool s' = id_pool s
      | Response status_code content =>
          if decide (status_code = 304) then
            segment_stops cid segment_index L s s' r ∧ id_pool s' = id_pool s
          else if decide (status_code ≠ 200) then
            segment_stops cid segment_index L s s' r ∧ id_pool s' = id_pool s
          else if decide (content = []) then
            segment_stops cid segment_index L s s' r ∧ id_pool s' = id_pool s
          else if decide (decode_danmaku_response content = []) then
            segment_stops cid segment_index L s s' r ∧ id_pool s' = id_pool s
          else if decide (fingerprints (decode_danmaku_response content)
                          ⊆ fingerprints L ∪ id_pool s) then
            segment_stops cid segment_index L s s' r
            ∧ id_pool s' = fingerprints L ∪ id_pool s
          else
            r = Continue (segment_index + 1,
                  L ++ first_seen (fingerprints L ∪ id_pool s)
                         (decode_danmaku_response content))
            ∧ trace s' = trace s ++ [EvGet (SegmentReq cid segment_index);
                                     EvSleep (1 # 2)]
            ∧ id_pool s' = fingerprints (decode_danmaku_response content)
                           ∪ fingerprints L ∪ id_pool s
      end.
Proof.
  unfold segment_body, segment_stops, mbind, M_bind. rewrite http_get_eq.
  destruct (serve (srv s) _) as [[status content|] srv']; simpl;
    [|by eexists _, _].
  destruct (decide (status = 304)) as [->|H304]; [by eexists _, _|].
  rewrite (proj2 (Z.eqb_neq _ _) H304).
  destruct (decide (status ≠ 200)) as [H200|H200].
  { rewrite (proj2 (Z.eqb_neq _ _) H200). simpl. by eexists _, _. }
  apply dec_stable in H200 as ->. simpl.
  destruct (decide (content = [])) as [->|Hc]; [by eexists _, _|].
  assert ((len content =? 0) = false) as ->.
  { apply Z.eqb_neq. by rewrite len_nil_iff. }
  destruct (decide (decode_danmaku_response content = [])) as [->|Hd];
    [by eexists _, _|].
  destruct (decode_danmaku_response content) as [|d ds] eqn:Hdec; [done|].
  rewrite merge_danmaku_in_place_eq. simpl.
  set (added := first_seen (fingerprints L ∪ id_pool s) (d :: ds)).
  assert (len (L ++ added) - len L = len added) as -> by (rewrite len_app; lia).
  destruct (decide (fingerprints (d :: ds) ⊆ fingerprints L ∪ id_pool s)) as [Hsub|Hsub].
  - assert (added = []) as Hnil by (by apply first_seen_nil_iff).
    rewrite Hnil.
    simpl. rewrite app_nil_r. eexists _, _. split; [done|]. split; [done|].
    split; [done|]. simpl. set_solver.
  - assert (added ≠ []) as Hne by (unfold added; by rewrite first_seen_nil_iff).
    assert ((len added =? 0) = false) as ->.
    { apply Z.eqb_neq. by rewrite len_nil_iff. }
    eexists _, _. split; [done|]. simpl. by rewrite <-app_assoc.
Qed.

(** What one iteration keeps true: the list only grows at its end, by
    records whose fingerprints were not in the pool; the pool only grows
    and holds the fingerprints of the list once the list has grown. *)
Lemma segment_body_grows cid segment_index L (s : session) r s' :
  segment_body serve cid segment_index L s = Some (r, s') →
  ∃ more, match r with Break (_, L') | Continue (_, L') => L' = L ++ more end
    ∧ NoDup (get_unique_id <$> more)
    ∧ (∀ d, d ∈ more → get_unique_id d ∉ fingerprints L ∪ id_pool s)
    ∧ id_pool s ⊆ id_pool s'
    ∧ fingerprints more ⊆ id_pool s'
    ∧ (more ≠ [] → fingerprints L ⊆ id_pool s').
Proof.
  destruct (segment_body_cases cid segment_index L s) as (r0 & s0 & Hb & _ & Hcase).
  rewrite Hb. intros [= <- <-].
  assert (∀ P, segment_stops cid segment_index L s s0 r0 ∧ id_pool s0 = P →
            id_pool s ⊆ P →
            ∃ more, match r0 with Break (_, L') | Continue (_, L') => L' = L ++ more end
              ∧ NoDup (get_unique_id <$> more)
              ∧ (∀ d, d ∈ more → get_unique_id d ∉ fingerprints L ∪ id_pool s)
              ∧ id_pool s ⊆ id_pool s0
              ∧ fingerprints more ⊆ id_pool s0
              ∧ (more ≠ [] → fingerprints L ⊆ id_pool s0)) as Hstop.
  { intros P [[-> _] HP] Hsub. exists []. rewrite app_nil_r, HP.
    split; [done|]. split; [constructor|]. split; [by intros d ?%elem_of_nil|].
    split; [done|]. split; [by rewrite fingerprints_nil|done]. }
  destruct (serve (srv s) _) as [[status content|] srv']; simpl in Hcase;
    [|by eapply Hstop].
  repeat (destruct (decide _) in Hcase; [by eapply Hstop; [done|set_solver]|]).
  destruct Hcase as (-> & _ & HP).
  eexists. split; [done|]. split; [apply first_seen_NoDup|].
  split; [intros d; apply first_seen_fresh|].
  rewrite HP. split; [set_solver|]. split; [|set_solver].
  pose proof (first_seen_fingerprints (fingerprints L ∪ id_pool s)
                (decode_danmaku_response content)). set_solver.
Qed.
End SegmentLoop.

Section SegmentLoopTrace.
Context `{Platform} {Server : Type} (serve : Server → request → http_result * Server).

#[local] Abbreviation session := (session (Server:=Server)).

Lemma segment_body_shape cid segment_index L (s : session) :
  ∃ r s', segment_body serve cid segment_index L s = Some (r, s')
    ∧ ((r = Break (segment_index, L)
        ∧ trace s' = trace s ++ [EvGet (SegmentReq cid segment_index)])
       ∨ (∃ L', r = Continue (segment_index + 1, L')
          ∧ trace s' = trace s ++ [EvGet (SegmentReq cid segment_index);
                                   EvSleep (1 # 2)])).
Proof.
  destruct (segment_body_cases serve cid segment_index L s)
    as (r & s' & Hb & _ & Hcase).
  exists r, s'. split; [done|].
  destruct (serve (srv s) _) as [[status content|] srv']; simpl in Hcase;
    [|left; apply Hcase].
  repeat (destruct (decide _) in Hcase; [left; apply Hcase|]).
  right. destruct Hcase as (-> & Ht & _). by eexists.
Qed.

(** The whole loop, from any index: it returns; its trace is a number of
    rounds that went on, each a request and the half-second sleep, and
    then at most one round that stopped; the indices never pass 100. The
    list grows at its end by records with fresh, distinct fingerprints. *)
Lemma segment_loop_spec fuel cid segment_index L (s : session) :
  1 ≤ segment_index ≤ 101 → 101 - segment_index ≤ Z.of_nat fuel →
  ∃ L' s' (n : nat) (stopped : bool) more,
    segment_loop serve fuel cid segment_index L s = Some (L', s')
    ∧ trace s' = trace s ++ full_rounds cid segment_index n ++
                 (if stopped
                  then [EvGet (SegmentReq cid (segment_index + Z.of_nat n))]
                  else [])
    ∧ segment_index + Z.of_nat n + (if stopped then 1 else 0) ≤ 101
    ∧ (segment_index ≤ 100 → 1 ≤ Z.of_nat n + (if stopped then 1 else 0))
    ∧ L' = L ++ more
    ∧ NoDup (get_unique_id <$> more)
    ∧ (∀ d, d ∈ more → get_unique_id d ∉ fingerprints L ∪ id_pool s)
    ∧ id_pool s ⊆ id_pool s'.
Proof.
  revert segment_index L s.
  induction fuel as [|fuel IH]; intros idx L s Hidx Hfuel.
  - assert (idx = 101) as -> by lia. simpl.
    exists L, s, 0%nat, false, []. rewrite !app_nil_r.
    split; [done|]. split; [done|]. split; [lia|]. split; [lia|].
    split; [done|]. split; [constructor|]. split; [by intros d ?%elem_of_nil|done].
  - simpl. destruct (idx <=? 100) eqn:Hle.
    2: { apply Z.leb_gt in Hle. exists L, s, 0%nat, false, []. rewrite !app_nil_r.
         split; [done|]. split; [done|]. split; [lia|]. split; [lia|].
         split; [done|]. split; [constructor|].
         split; [by intros d ?%elem_of_nil|done]. }
    apply Z.leb_le in Hle. unfold mbind, M_bind.
    destruct (segment_body_shape cid idx L s) as (r & s1 & Hb & Hshape).
    rewrite Hb.
    destruct (segment_body_grows serve cid idx L s r s1 Hb)
      as (more1 & HL1 & Hnd1 & Hfresh1 & Hpool1 & Hin1 & HL).
    destruct Hshape as [[-> Ht]|(L1 & -> & Ht)].
    + exists L, s1, 0%nat, true, []. rewrite !app_nil_r, Z.add_0_r. simpl.
      split; [done|]. split; [done|]. split; [lia|]. split; [lia|].
      split; [done|]. split; [constructor|].
      split; [by intros d ?%elem_of_nil|done].
    + subst L1.
      destruct (IH (idx + 1) (L ++ more1) s1 ltac:(lia) ltac:(lia))
        as (L' & s' & n & stopped & more & Hloop & Ht' & Hbound & _
            & -> & Hnd & Hfresh & Hpool).
      exists ((L ++ more1) ++ more), s', (S n), stopped, (more1 ++ more).
      split; [done|]. split.
      { rewrite Ht', Ht, full_rounds_S, <-!app_assoc. simpl.
        by replace (idx + 1 + Z.of_nat n) with (idx + Z.of_nat (S n)) by lia. }
      split; [lia|]. split; [destruct stopped; lia|].
      split; [by rewrite app_assoc|].
      split; [|split; [|set_solver]].
      * rewrite fmap_app. apply NoDup_app. split; [done|]. split; [|done].
        intros u (d & -> & Hd)%list_elem_of_fmap (d' & Heq & Hd')%list_elem_of_fmap.
        apply (Hfresh d' Hd'). rewrite <-Heq, fingerprints_app.
        apply elem_of_union_l, elem_of_union_r, elem_of_fingerprints. by exists d.
      * intros d [Hd|Hd]%elem_of_app; [by apply Hfresh1|].
        intros Hin. apply (Hfresh d Hd).
        rewrite fingerprints_app. set_solver.
Qed.
End SegmentLoopTrace.

(** C4. Whatever the server does, the segment fetcher returns, after at
    least one and at most 100 requests, which are for the segment indices
    1, 2, ..., k in this order. *)
Theorem segment_fetch_at_most_100_requests `{Platform} {Server : Type}
    (serve : Server → request → http_result * Server)
    (cid : Z) (s : session (Server:=Server)) :
  ∃ L s' (k : nat),
    get_segmented_danmaku serve cid s = Some (L, s')
    ∧ (1 ≤ k ≤ 100)%nat
    ∧ requests (trace s') = requests (trace s) ++ (SegmentReq cid <$> seqZ 1 (Z.of_nat k)).
Proof.
  destruct (segment_loop_spec serve 100 cid 1 [] s ltac:(lia) ltac:(lia))
    as (L & s' & n & stopped & more & Hloop & Ht & Hbound & Hone & _).
  specialize (Hone ltac:(lia)).
  exists L, s', (n + if stopped then 1 else 0)%nat.
  split; [done|]. split; [destruct stopped; lia|].
  rewrite Ht, !requests_app, requests_full_rounds. f_equal.
  destruct stopped; simpl.
  - rewrite Nat2Z.inj_add, seqZ_app by lia. by rewrite fmap_app.
  - by rewrite Nat.add_0_r, app_nil_r.
Qed.


(** ** The orchestrator *)

Section Orchestrator.
Context `{Platform}.

Lemma first_seen_cons (pool : gset string) d l :
  first_seen pool (d :: l)
  = if decide (get_unique_id d ∈ pool) then first_seen pool l
    else d :: first_seen ({[get_unique_id d]} ∪ pool) l.
Proof. done. Qed.


Lemma first_seen_id (pool : gset string) l :
  NoDup (get_unique_id <$> l) →
  (∀ d, d ∈ l → get_unique_id d ∉ pool) →
  first_seen pool l = l.
Proof.
  revert pool. induction l as [|d l IH]; intros pool Hnd Hfresh; [done|].
  rewrite first_seen_cons. rewrite fmap_cons in Hnd.
  apply NoDup_cons in Hnd as [Hd Hnd].
  rewrite decide_False by (apply Hfresh; by left).
  f_equal. apply IH; [done|].
  intros d' Hd' [Heq%elem_of_singleton|Hin]%elem_of_union.
  - apply Hd, list_elem_of_fmap. by exists d'.
  - apply (Hfresh d'); [by right|done].
Qed.

Lemma merge_all_eq all_danmaku_lists :
  merge_all all_danmaku_lists = first_seen ∅ (concat all_danmaku_lists).
Proof.
  unfold merge_all.
  assert (∀ lists st,
    foldl (λ st l, foldl merge_one st l) st lists = foldl merge_one st (concat lists))
    as Hc.
  { induction lists as [|l lists IH]; intros st; simpl; [done|].
    by rewrite IH, foldl_app. }
  by rewrite Hc, foldl_merge_one.
Qed.

Lemma concat_append_if_nonempty lists l :
  concat (append_if_nonempty lists l) = concat lists ++ l.
Proof.
  destruct l as [|d l]; simpl; [by rewrite app_nil_r|].
  by rewrite concat_app; simpl; rewrite app_nil_r.
Qed.

Lemma insert_by_progress_perm x l : insert_by_progress x l ≡ₚ x :: l.
Proof.
  induction l as [|y l IH]; simpl; [done|].
  destruct (progress x <=? progress y); [done|].
  rewrite IH. apply Permutation_swap.
Qed.

Lemma sort_by_progress_perm l : sort_by_progress l ≡ₚ l.
Proof.
  induction l as [|x l IH]; simpl; [done|].
  by rewrite insert_by_progress_perm, IH.
Qed.

Lemma insert_by_progress_sorted x l :
  StronglySorted (λ a b, progress a ≤ progress b) l →
  StronglySorted (λ a b, progress a ≤ progress b) (insert_by_progress x l).
Proof.
  induction 1 as [|y l Hs IH Hall]; simpl.
  - by repeat constructor.
  - destruct (progress x <=? progress y) eqn:Hle.
    + apply Z.leb_le in Hle. constructor; [by constructor|].
      constructor; [done|].
      eapply Forall_impl; [exact Hall|]. simpl. intros; lia.
    + apply Z.leb_gt in Hle. constructor; [done|].
      rewrite insert_by_progress_perm. constructor; [lia|done].
Qed.

Lemma sort_by_progress_sorted l :
  StronglySorted (λ a b, progress a ≤ progress b) (sort_by_progress l).
Proof.
  induction l as [|x l IH]; simpl; [constructor|].
  by apply insert_by_progress_sorted.
Qed.

Context {Server : Type} (serve : Server → request → http_result * Server).
#[local] Abbreviation session := (session (Server:=Server)).


End Orchestrator.




(** ** The wire format: what the decoder reads back *)

Lemma byte_val_byte_of z : 0 ≤ z < 256 → byte_val (byte_of z) = z.
Proof.
  intros Hz. unfold byte_val, byte_of.
  destruct (Byte.of_N (Z.to_N z)) as [b|] eqn:Hb; simpl.
  - apply Byte.to_of_N in Hb. rewrite Hb. lia.
  - apply Byte.of_N_None_iff in Hb. lia.
Qed.

Lemma land_127 z : 0 ≤ z → Z.land z 127 = z `mod` 128.
Proof. intros. change 127 with (Z.ones 7). by rewrite Z.land_ones. Qed.

Lemma land_128_low z : 0 ≤ z < 128 → Z.land z 128 = 0.
Proof.
  intros Hz. apply Z.bits_inj'. intros k Hk.
  rewrite Z.land_spec, Z.bits_0. change 128 with (2 ^ 7).
  rewrite Z.pow2_bits_eqb by lia.
  destruct (decide (k = 7)) as [->|Hne].
  - assert (Z.log2 z < 7) as Hlog.
    { destruct (decide (z = 0)) as [->|]; [done|]. apply Z.log2_lt_pow2; lia. }
    by rewrite (Z.bits_above_log2 z 7) by lia.
  - rewrite (proj2 (Z.eqb_neq 7 k)) by lia. apply andb_false_r.
Qed.

Lemma land_128_high z : 0 ≤ z < 128 → Z.land (z + 128) 128 = 128.
Proof.
  intros Hz. apply Z.bits_inj'. intros k Hk.
  rewrite Z.land_spec. change 128 with (2 ^ 7) at 2 3.
  rewrite Z.pow2_bits_eqb by lia.
  destruct (decide (k = 7)) as [->|Hne].
  - rewrite andb_true_r. apply Z.testbit_true; [lia|].
    change (2 ^ 7) with 128.
    replace ((z + 128) `div` 128) with 1; [done|].
    apply Z.div_unique with (r := z); lia.
  - rewrite (proj2 (Z.eqb_neq 7 k)) by lia. apply andb_false_r.
Qed.

(** Bits added above the ones already there. *)
Lemma lor_shiftl_add a b s : 0 ≤ s → 0 ≤ a < 2 ^ s → 0 ≤ b →
  Z.lor a (Z.shiftl b s) = a + b * 2 ^ s.
Proof.
  intros Hs Ha Hb.
  rewrite <-Z.shiftl_mul_pow2 by done.
  assert (Z.land a (Z.shiftl b s) = 0) as Hdisj.
  { apply Z.bits_inj'. intros k Hk. rewrite Z.land_spec, Z.bits_0.
    destruct (decide (k < s)).
    - rewrite Z.shiftl_spec_low by done. apply andb_false_r.
    - destruct (decide (a = 0)) as [->|]; [by rewrite Z.bits_0|].
      assert (Z.log2 a < k) as Hlog.
      { apply Z.lt_le_trans with s; [|lia]. apply Z.log2_lt_pow2; lia. }
      by rewrite (Z.bits_above_log2 a k) by lia. }
  rewrite <-Z.lxor_lor by done. symmetry. by apply Z.add_nocarry_lxor.
Qed.

Lemma encode_varint_go_nonempty fuel n : encode_varint_go fuel n ≠ [].
Proof. destruct fuel; simpl; [done|]. by destruct (n <? 128). Qed.

Lemma encode_varint_nonempty n : encode_varint n ≠ [].
Proof. apply encode_varint_go_nonempty. Qed.

(** The decoding loop on an encoded number followed by anything. *)
Lemma varint_loop_encode fuel n rest result shift pos :
  0 ≤ n → n < 2 ^ (7 * (Z.of_nat fuel + 1)) → 0 ≤ shift → 0 ≤ result < 2 ^ shift →
  varint_loop (encode_varint_go fuel n ++ rest) result shift pos
  = (result + n * 2 ^ shift, pos + len (encode_varint_go fuel n)).
Proof.
  revert n result shift pos.
  induction fuel as [|fuel IH]; intros n result shift pos Hn Hbound Hs Hr.
  - simpl in Hbound. change (2 ^ 7) with 128 in Hbound.
    simpl. rewrite byte_val_byte_of by lia.
    rewrite land_128_low by lia. simpl.
    rewrite land_127, Z.mod_small, lor_shiftl_add by lia. done.
  - cbn [encode_varint_go]. destruct (n <? 128) eqn:Hlt.
    + apply Z.ltb_lt in Hlt. simpl. rewrite byte_val_byte_of by lia.
      rewrite land_128_low by lia. simpl.
      rewrite land_127, Z.mod_small, lor_shiftl_add by lia. done.
    + apply Z.ltb_ge in Hlt.
      pose proof (Z.mod_pos_bound n 128 ltac:(lia)) as Hmod.
      cbn [app varint_loop]. rewrite byte_val_byte_of by lia.
      rewrite land_128_high by lia. simpl (128 =? 0).
      rewrite land_127 by lia.
      replace ((n `mod` 128 + 128) `mod` 128) with (n `mod` 128).
      2: { apply Z.mod_unique with (q := 1); lia. }
      rewrite lor_shiftl_add by lia.
      rewrite IH.
      * f_equal.
        -- rewrite Z.pow_add_r by lia. change (2 ^ 7) with 128.
           pose proof (Z.div_mod n 128 ltac:(lia)). nia.
        -- unfold len. simpl. lia.
      * apply Z.div_pos; lia.
      * apply Z.div_lt_upper_bound; [lia|].
        replace (7 * (Z.of_nat (S fuel) + 1)) with (7 + 7 * (Z.of_nat fuel + 1)) in Hbound
          by lia.
        rewrite Z.pow_add_r in Hbound by lia. exact Hbound.
      * lia.
      * split; [nia|]. rewrite Z.pow_add_r by lia. change (2 ^ 7) with 128. nia.
Qed.

Lemma encode_varint_bound n :
  0 ≤ n → n < 2 ^ (7 * (Z.of_nat (Z.to_nat (Z.log2 n)) + 1)).
Proof.
  intros Hn. destruct (decide (n = 0)) as [->|Hne]; [done|].
  rewrite Z2Nat.id by apply Z.log2_nonneg.
  pose proof (Z.log2_spec n ltac:(lia)) as [_ Hlt].
  eapply Z.lt_le_trans; [exact Hlt|].
  apply Z.pow_le_mono_r; [lia|]. pose proof (Z.log2_nonneg n). lia.
Qed.

(** [decode_varint] reads back an encoded number, wherever it stands, and
    stops right after it. *)
Lemma decode_varint_encode pre n rest :
  0 ≤ n →
  decode_varint (pre ++ encode_varint n ++ rest) (len pre)
  = (n, len pre + len (encode_varint n)).
Proof.
  intros Hn. unfold decode_varint, len at 1.
  rewrite Nat2Z.id, drop_app_length. unfold encode_varint.
  rewrite varint_loop_encode; [|done|by apply encode_varint_bound|done|done].
  f_equal. lia.
Qed.

Lemma varint_loop_shift rest result shift pos a :
  varint_loop rest result shift (a + pos)
  = ((varint_loop rest result shift pos).1, a + (varint_loop rest result shift pos).2).
Proof.
  revert result shift pos.
  induction rest as [|b rest IH]; intros result shift pos; simpl; [done|].
  destruct (Z.land (byte_val b) 128 =? 0); simpl; [f_equal; lia|].
  replace (a + pos + 1) with (a + (pos + 1)) by lia. apply IH.
Qed.

(** A varint whose every byte has the continuation bit set is read to
    the end of the data. *)
Lemma varint_loop_truncated rest result shift pos :
  Forall (λ b, Z.land (byte_val b) 0x80 ≠ 0) rest →
  (varint_loop rest result shift pos).2 = pos + len rest.
Proof.
  intros Hall. revert result shift pos.
  induction Hall as [|b rest Hb Hall IH]; intros result shift pos; simpl.
  - unfold len; simpl; lia.
  - rewrite (proj2 (Z.eqb_neq _ _) Hb). rewrite IH. unfold len; simpl; lia.
Qed.

(** The decoders use absolute positions, but what they read depends only
    on the bytes from the position on. *)
Lemma decode_varint_shift pre data offset :
  0 ≤ offset →
  decode_varint (pre ++ data) (len pre + offset)
  = ((decode_varint data offset).1, len pre + (decode_varint data offset).2).
Proof.
  intros Ho. unfold decode_varint, len.
  replace (Z.to_nat (Z.of_nat (length pre) + offset))
    with (length pre + Z.to_nat offset)%nat by lia.
  rewrite drop_app_add' by done. apply varint_loop_shift.
Qed.

Lemma py_slice_shift {A} (pre data : list A) lo hi :
  0 ≤ lo →
  py_slice (pre ++ data) (len pre + lo) (len pre + hi) = py_slice data lo hi.
Proof.
  intros Hlo. unfold py_slice. rewrite len_app.
  replace (Z.min (len pre + hi) (len pre + len data)
           - Z.min (len pre + lo) (len pre + len data))
    with (Z.min hi (len data) - Z.min lo (len data)) by lia.
  f_equal. pose proof (len_nonneg data). unfold len in *.
  replace (Z.to_nat (Z.min (Z.of_nat (length pre) + lo)
                       (Z.of_nat (length pre) + Z.of_nat (length data))))
    with (length pre + Z.to_nat (Z.min lo (Z.of_nat (length data))))%nat by lia.
  by rewrite drop_app_add'.
Qed.

Lemma py_slice_exact {A} (data rest : list A) : py_slice (data ++ rest) 0 (len data) = data.
Proof.
  unfold py_slice. rewrite len_app. pose proof (len_nonneg data).
  pose proof (len_nonneg rest).
  rewrite (Z.min_l 0), (Z.min_l (len data)) by lia. simpl. unfold len.
  rewrite Z.sub_0_r, Nat2Z.id. apply take_app_length.
Qed.

(** A slice that asks for more than there is gives what there is. *)
Lemma py_slice_short {A} (data : list A) hi : len data ≤ hi → py_slice data 0 hi = data.
Proof.
  intros Hhi. unfold py_slice. pose proof (len_nonneg data).
  rewrite (Z.min_l 0), (Z.min_r hi) by lia. simpl. unfold len.
  rewrite Z.sub_0_r, Nat2Z.id. by apply take_ge.
Qed.

Lemma shiftr_tag n k : 0 ≤ k < 8 → Z.shiftr (n * 8 + k) 3 = n.
Proof.
  intros Hk. rewrite Z.shiftr_div_pow2 by lia. change (2 ^ 3) with 8.
  symmetry. apply Z.div_unique with (r := k); lia.
Qed.

Lemma land_tag n k : 0 ≤ n → 0 ≤ k < 8 → Z.land (n * 8 + k) 7 = k.
Proof.
  intros Hn Hk. change 7 with (Z.ones 3). rewrite Z.land_ones by lia.
  change (2 ^ 3) with 8. symmetry. apply Z.mod_unique with (q := n); lia.
Qed.

Lemma decode_varint_ge data offset : offset ≤ (decode_varint data offset).2.
Proof. apply varint_loop_pos. Qed.

Section WireSteps.
Context `{Platform}.

Lemma decode_string_shift pre data offset length :
  0 ≤ offset →
  decode_string (pre ++ data) (len pre + offset) length
  = decode_string data offset length.
Proof.
  intros Ho. unfold decode_string.
  replace (len pre + offset + length) with (len pre + (offset + length)) by lia.
  by rewrite py_slice_shift.
Qed.

Lemma response_step_shift pre data pos danmaku_list :
  0 ≤ pos →
  response_step (pre ++ data) (len pre + pos) danmaku_list
  = match response_step data pos danmaku_list with
    | Continue (p, l) => Continue (len pre + p, l)
    | Break (p, l) => Break (len pre + p, l)
    end.
Proof.
  intros Hpos. unfold response_step.
  rewrite decode_varint_shift by done.
  pose proof (decode_varint_ge data pos) as Hp1.
  destruct (decode_varint data pos) as [tag p1]; simpl in *.
  rewrite decode_varint_shift by lia.
  pose proof (decode_varint_ge data p1) as Hp2.
  destruct (decode_varint data p1) as [v p2]; simpl in *.
  destruct ((Z.shiftr tag 3 =? 1) && (Z.land tag 7 =? 2)).
  - replace (len pre + p2 + v) with (len pre + (p2 + v)) by lia.
    by rewrite py_slice_shift by lia.
  - destruct (Z.land tag 7 =? 0); [done|].
    destruct (Z.land tag 7 =? 2); [|done].
    by replace (len pre + p2 + v) with (len pre + (p2 + v)) by lia.
Qed.

Lemma element_step_shift pre data pos element :
  0 ≤ pos →
  element_step (pre ++ data) (len pre + pos) element
  = (λ '(p, e), (len pre + p, e)) <$> element_step data pos element.
Proof.
  intros Hpos. unfold element_step.
  rewrite decode_varint_shift by done.
  pose proof (decode_varint_ge data pos) as Hp1.
  destruct (decode_varint data pos) as [tag p1]; simpl in *.
  rewrite decode_varint_shift by lia.
  pose proof (decode_varint_ge data p1) as Hp2.
  destruct (decode_varint data p1) as [v p2]; simpl in *.
  destruct (Z.land tag 7 =? 0).
  - by destruct (field_map !! _).
  - destruct (Z.land tag 7 =? 2); [|done].
    rewrite decode_string_shift by lia.
    replace (len pre + p2 + v) with (len pre + (p2 + v)) by lia.
    by destruct (string_map !! _).
Qed.

Lemma response_loop_shift fuel pre data pos danmaku_list :
  0 ≤ pos →
  response_loop fuel (pre ++ data) (len pre + pos) danmaku_list
  = response_loop fuel data pos danmaku_list.
Proof.
  revert pos danmaku_list.
  induction fuel as [|fuel IH]; intros pos danmaku_list Hpos; simpl;
    rewrite len_app;
    replace (len pre + pos <? len pre + len data) with (pos <? len data)
      by (destruct (Z.ltb_spec pos (len data)),
            (Z.ltb_spec (len pre + pos) (len pre + len data)); lia || done);
    [done|].
  destruct (pos <? len data) eqn:Hlt; [|done].
  apply Z.ltb_lt in Hlt.
  rewrite response_step_shift by done.
  destruct (response_step data pos danmaku_list) as [[p l]|[p l]] eqn:Hs; [|done].
  apply response_step_progress in Hs; [|lia].
  apply IH. lia.
Qed.

Lemma element_loop_shift fuel pre data pos element :
  0 ≤ pos →
  element_loop fuel (pre ++ data) (len pre + pos) element
  = element_loop fuel data pos element.
Proof.
  revert pos element.
  induction fuel as [|fuel IH]; intros pos element Hpos; simpl;
    rewrite len_app;
    replace (len pre + pos <? len pre + len data) with (pos <? len data)
      by (destruct (Z.ltb_spec pos (len data)),
            (Z.ltb_spec (len pre + pos) (len pre + len data)); lia || done);
    [done|].
  destruct (pos <? len data) eqn:Hlt; [|done].
  apply Z.ltb_lt in Hlt.
  rewrite element_step_shift by done.
  destruct (element_step data pos element) as [[p e]|] eqn:Hs; [|done].
  apply element_step_progress in Hs; [|lia].
  simpl. apply IH. lia.
Qed.

(** Results do not depend on the fuel that produced them. *)
Lemma decode_danmaku_response_eq fuel data r :
  response_loop fuel data 0 [] = Some r → decode_danmaku_response data = r.
Proof.
  intros Hr. unfold decode_danmaku_response.
  destruct (response_loop_total data) as [r' Hr'].
  rewrite Hr'. simpl.
  pose proof (response_loop_fuel_mono fuel (fuel `max` length data) _ _ _ _
                ltac:(lia) Hr) as H1.
  pose proof (response_loop_fuel_mono (length data) (fuel `max` length data) _ _ _ _
                ltac:(lia) Hr') as H2.
  congruence.
Qed.

Lemma element_loop_eq fuel data r :
  element_loop fuel data 0 ∅ = Some r →
  element_loop (length data) data 0 ∅ = Some r.
Proof.
  intros Hr.
  destruct (element_loop_total (length data) data 0 ∅) as [r' Hr'];
    [lia|unfold len; lia|].
  pose proof (element_loop_fuel_mono fuel (fuel `max` length data) _ _ _ _
                ltac:(lia) Hr) as H1.
  pose proof (element_loop_fuel_mono (length data) (fuel `max` length data) _ _ _ _
                ltac:(lia) Hr') as H2.
  congruence.
Qed.
End WireSteps.

Lemma decode_varint_encode0 n rest :
  0 ≤ n → decode_varint (encode_varint n ++ rest) 0 = (n, len (encode_varint n)).
Proof. intros Hn. apply (decode_varint_encode [] n rest Hn). Qed.

Lemma encode_field_nonempty f : encode_field f ≠ [].
Proof.
  destruct f as [n v|n payload]; simpl; unfold encode_tag;
    intros [Heq _]%app_nil; by apply encode_varint_nonempty in Heq.
Qed.

Section WireFields.
Context `{Platform}.

(** Reading the tag and the varint after it. *)
Lemma decode_tag n k rest :
  0 ≤ n → 0 ≤ k < 8 →
  decode_varint (encode_tag n k ++ rest) 0 = (n * 8 + k, len (encode_tag n k))
  ∧ Z.shiftr (n * 8 + k) 3 = n ∧ Z.land (n * 8 + k) 7 = k.
Proof.
  intros Hn Hk. split; [apply decode_varint_encode0; lia|].
  split; [by apply shiftr_tag|by apply land_tag].
Qed.

(** One iteration of the top-level loop on a field encoded in full. *)
Lemma response_step_field f rest danmaku_list :
  wf_field f →
  response_step (encode_field f ++ rest) 0 danmaku_list
  = Continue (len (encode_field f),
              danmaku_list ++ option_list (record_of_field f)).
Proof.
  intros Hwf. unfold response_step.
  destruct f as [n v|n payload]; simpl in Hwf; cbn [encode_field].
  - destruct Hwf as [Hn Hv]. rewrite <-app_assoc.
    destruct (decode_tag n 0 (encode_varint v ++ rest) Hn ltac:(lia))
      as (-> & -> & ->).
    rewrite decode_varint_encode by done.
    rewrite andb_false_r. simpl. rewrite app_nil_r, len_app. done.
  - rewrite <-!app_assoc.
    destruct (decode_tag n 2 (encode_varint (len payload) ++ payload ++ rest)
                Hwf ltac:(lia)) as (-> & -> & ->).
    rewrite decode_varint_encode by apply len_nonneg.
    rewrite !len_app.
    destruct (decide (n = 1)) as [->|Hne].
    + simpl ((1 =? 1) && (2 =? 2)). cbv iota.
      assert (py_slice
                (encode_tag 1 2 ++ encode_varint (len payload) ++ payload ++ rest)
                (len (encode_tag 1 2) + len (encode_varint (len payload)))
                (len (encode_tag 1 2) + len (encode_varint (len payload))
                 + len payload) = payload) as ->.
      { rewrite (app_assoc (encode_tag 1 2)).
        replace (len (encode_tag 1 2) + len (encode_varint (len payload)))
          with (len (encode_tag 1 2 ++ encode_varint (len payload)) + 0)
          by (rewrite len_app; lia).
        rewrite <-Z.add_assoc, py_slice_shift by done. apply py_slice_exact. }
      cbn [record_of_field].
      destruct (decode_danmaku_element payload); simpl;
        [f_equal; f_equal; lia|rewrite app_nil_r; f_equal; f_equal; lia].
    + rewrite (proj2 (Z.eqb_neq n 1) Hne).
      assert (record_of_field (WBytes n payload) = None) as ->.
      { by destruct n as [|[p|p|]|]. }
      simpl. rewrite app_nil_r. f_equal. f_equal. lia.
Qed.

Lemma element_step_field f rest element :
  wf_field f →
  element_step (encode_field f ++ rest) 0 element
  = Some (len (encode_field f), element_of_field element f).
Proof.
  intros Hwf. unfold element_step.
  destruct f as [n v|n payload]; simpl in Hwf; cbn [encode_field element_of_field].
  - destruct Hwf as [Hn Hv]. rewrite <-app_assoc.
    destruct (decode_tag n 0 (encode_varint v ++ rest) Hn ltac:(lia))
      as (-> & -> & ->).
    rewrite decode_varint_encode by done. simpl. rewrite len_app.
    by destruct (field_map !! n).
  - rewrite <-!app_assoc.
    destruct (decode_tag n 2 (encode_varint (len payload) ++ payload ++ rest)
                Hwf ltac:(lia)) as (-> & -> & ->).
    rewrite decode_varint_encode by apply len_nonneg. simpl.
    assert (decode_string
              (encode_tag n 2 ++ encode_varint (len payload) ++ payload ++ rest)
              (len (encode_tag n 2) + len (encode_varint (len payload))) (len payload)
            = decode_string payload 0 (len payload)) as ->.
    { rewrite (app_assoc (encode_tag n 2)), <-len_app.
      rewrite <-(Z.add_0_r (len (encode_tag n 2 ++ encode_varint (len payload)))).
      rewrite decode_string_shift by done.
      unfold decode_string. by rewrite !Z.add_0_l, py_slice_exact, py_slice_short. }
    rewrite !len_app.
    destruct (string_map !! n); do 2 f_equal; lia.
Qed.

(** The list collected so far is only ever extended. *)
Lemma response_loop_acc fuel data pos acc l :
  response_loop fuel data pos (acc ++ l) = (acc ++.) <$> response_loop fuel data pos l.
Proof.
  revert pos l. induction fuel as [|fuel IH]; intros pos l; simpl.
  - by destruct (pos <? len data).
  - destruct (pos <? len data); [|done].
    unfold response_step.
    destruct (decode_varint data pos) as [tag p1].
    destruct (decode_varint data p1) as [v p2].
    destruct ((Z.shiftr tag 3 =? 1) && (Z.land tag 7 =? 2)).
    + destruct (decode_danmaku_element _); [|apply IH].
      rewrite <-app_assoc. apply IH.
    + destruct (Z.land tag 7 =? 0); [apply IH|].
      destruct (Z.land tag 7 =? 2); [apply IH|done].
Qed.

Lemma response_loop_fields fields rest fuel r :
  Forall wf_field fields →
  response_loop fuel rest 0 [] = Some r →
  ∃ fuel', response_loop fuel' (encode_message fields ++ rest) 0 []
           = Some (omap record_of_field fields ++ r).
Proof.
  intros Hwf. revert r. induction Hwf as [|f fields Hf Hwf IH]; intros r Hr.
  - by exists fuel.
  - destruct (IH r Hr) as [fuel1 Hloop].
    exists (S fuel1). unfold encode_message. rewrite fmap_cons, concat_cons.
    fold (encode_message fields). rewrite <-app_assoc.
    cbn [response_loop]. rewrite len_app.
    assert ((0 <? len (encode_field f) + len (encode_message fields ++ rest)) = true)
      as ->.
    { apply Z.ltb_lt. pose proof (len_nonneg (encode_message fields ++ rest)).
      pose proof (len_nonneg (encode_field f)).
      pose proof (len_nil_iff (encode_field f)).
      pose proof (encode_field_nonempty f).
      destruct (decide (len (encode_field f) = 0)); [tauto|lia]. }
    rewrite response_step_field by done.
    rewrite <-(Z.add_0_r (len (encode_field f))), response_loop_shift by done.
    rewrite app_nil_l, <-(app_nil_r (option_list _)), response_loop_acc, Hloop.
    simpl. by destruct (record_of_field f).
Qed.

Lemma element_loop_fields fields rest fuel element r :
  Forall wf_field fields →
  element_loop fuel rest 0 (foldl element_of_field element fields) = Some r →
  ∃ fuel', element_loop fuel' (encode_message fields ++ rest) 0 element = Some r.
Proof.
  intros Hwf. revert element.
  induction Hwf as [|f fields Hf Hwf IH]; intros element Hr.
  - by exists fuel.
  - destruct (IH _ Hr) as [fuel1 Hloop].
    exists (S fuel1). unfold encode_message. rewrite fmap_cons, concat_cons.
    fold (encode_message fields). rewrite <-app_assoc.
    cbn [element_loop]. rewrite len_app.
    assert ((0 <? len (encode_field f) + len (encode_message fields ++ rest)) = true)
      as ->.
    { apply Z.ltb_lt. pose proof (len_nonneg (encode_message fields ++ rest)).
      pose proof (len_nonneg (encode_field f)).
      pose proof (len_nil_iff (encode_field f)).
      pose proof (encode_field_nonempty f).
      destruct (decide (len (encode_field f) = 0)); [tauto|lia]. }
    rewrite element_step_field by done.
    by rewrite <-(Z.add_0_r (len (encode_field f))), element_loop_shift.
Qed.

End WireFields.

Section WireTails.
Context `{Platform}.

(** A tag of a wire kind other than 0 and 2 ends either loop. *)
Lemma response_loop_unknown_kind n k junk :
  0 ≤ n → 0 ≤ k < 8 → k ≠ 0 → k ≠ 2 →
  response_loop 1 (encode_tag n k ++ junk) 0 [] = Some [].
Proof.
  intros Hn Hk H0 H2. cbn [response_loop].
  destruct (0 <? len (encode_tag n k ++ junk)); [|done].
  unfold response_step.
  destruct (decode_tag n k junk Hn Hk) as (-> & -> & ->).
  destruct (decode_varint _ _) as [v p2].
  rewrite (proj2 (Z.eqb_neq k 2) H2), (proj2 (Z.eqb_neq k 0) H0), andb_false_r.
  done.
Qed.


End WireTails.

(** C7 as stated fails: a payload that consists of one field with number
    1 and wire kind 2, its sub-message empty, decodes to no record. *)
Lemma empty_submessage_gives_no_record :
  encode_message [WBytes 1 []] = [x0a; x00]
  ∧ decode_danmaku_response (H:=ascii_platform) [x0a; x00] = [].
Proof. split; vm_compute; reflexivity. Qed.

(** C7, amended. On a payload that begins with fields encoded in full,
    the top level yields, in order, one record for every field with
    number 1 and wire kind 2 whose sub-message gives a dictionary that is
    not empty, and nothing for any other field of wire kind 0 or 2, which
    is skipped whole; what follows the fields is decoded as it would be on
    its own. A tag of any other wire kind ends the decoding with the
    records collected so far. *)
Theorem decode_response_by_fields `{Platform}
    (fields : list wire_field) (rest junk : list byte) (n k : Z) :
  Forall wf_field fields →
  0 ≤ n → 0 ≤ k < 8 → k ≠ 0 → k ≠ 2 →
  decode_danmaku_response (encode_message fields ++ rest)
  = omap record_of_field fields ++ decode_danmaku_response rest
  ∧ decode_danmaku_response (encode_message fields) = omap record_of_field fields
  ∧ decode_danmaku_response (encode_message fields ++ encode_tag n k ++ junk)
    = omap record_of_field fields.
Proof.
  intros Hwf Hn Hk H0 H2.
  assert (∀ tail, decode_danmaku_response (encode_message fields ++ tail)
                  = omap record_of_field fields ++ decode_danmaku_response tail) as Hcomp.
  { intros tail. destruct (response_loop_total tail) as [r Hr].
    destruct (response_loop_fields fields tail _ r Hwf Hr) as [fuel' Hloop].
    rewrite (decode_danmaku_response_eq _ _ _ Hloop).
    by rewrite (decode_danmaku_response_eq _ _ _ Hr). }
  split; [apply Hcomp|]. split.
  - rewrite <-(app_nil_r (encode_message fields)), Hcomp. apply app_nil_r.
  - rewrite Hcomp.
    rewrite (decode_danmaku_response_eq _ _ _
               (response_loop_unknown_kind n k junk Hn Hk H0 H2)).
    apply app_nil_r.
Qed.

Lemma decode_response_by_fields_witness :
  decode_danmaku_response (H:=ascii_platform)
    (encode_message [WVarint 3 5; WBytes 1 (record_bytes 1000 7); WBytes 9 [x01];
                     WBytes 1 []; WBytes 1 (record_bytes 2000 8)]
     ++ encode_tag 4 5 ++ [x01; x02])
  = [record_at 1000 7; record_at 2000 8].
Proof.
  destruct (decode_response_by_fields (H:=ascii_platform)
    [WVarint 3 5; WBytes 1 (record_bytes 1000 7); WBytes 9 [x01];
     WBytes 1 []; WBytes 1 (record_bytes 2000 8)] [] [x01; x02] 4 5)
    as (_ & _ & Habort).
  - repeat constructor; simpl; lia.
  - lia.
  - lia.
  - lia.
  - lia.
  - rewrite Habort. vm_compute. reflexivity.
Defined.




(** * Further properties of the decoder *)

(** X1. A varint written in full is read back: at the position where it
    starts, [decode_varint] returns the number and the position just after
    its last byte, whatever bytes stand before and after it. An encoding
    has at least one byte, and exactly one for a number below 128. *)
Theorem varint_round_trip (pre rest : list byte) (n : Z) :
  0 ≤ n →
  decode_varint (pre ++ encode_varint n ++ rest) (len pre)
  = (n, len pre + len (encode_varint n))
  ∧ 1 ≤ len (encode_varint n)
  ∧ (n < 128 → encode_varint n = [byte_of n]).
Proof.
  intros Hn. split; [by apply decode_varint_encode|]. split.
  - pose proof (encode_varint_nonempty n). pose proof (len_nil_iff (encode_varint n)).
    pose proof (len_nonneg (encode_varint n)).
    destruct (decide (len (encode_varint n) = 0)); [tauto|lia].
  - intros Hlt. unfold encode_varint.
    destruct (Z.to_nat (Z.log2 n)); simpl; [done|].
    by rewrite (proj2 (Z.ltb_lt n 128) Hlt).
Qed.

Lemma varint_round_trip_witness :
  decode_varint ([x0a] ++ [xac; x02] ++ [xff]) 1 = (300, 3).
Proof.
  destruct (varint_round_trip [x0a] [xff] 300 ltac:(lia)) as (Hrt & _ & _).
  exact Hrt.
Defined.

(** X2. [decode_varint] at its edges: the value is never negative; the
    position never moves back and never passes the end of the data (or
    the offset, when that is already past the end); an offset at or past
    the end gives the value 0 and the offset itself; an offset before the
    end always consumes at least one byte; and when every byte from the
    offset on has its continuation bit set (the varint is cut off), all
    the bytes left are consumed. *)
Theorem decode_varint_bounds (data : list byte) (offset : Z) :
  0 ≤ offset →
  0 ≤ (decode_varint data offset).1
  ∧ offset ≤ (decode_varint data offset).2 ≤ Z.max offset (len data)
  ∧ (len data ≤ offset → decode_varint data offset = (0, offset))
  ∧ (offset < len data → offset < (decode_varint data offset).2)
  ∧ (offset ≤ len data →
     Forall (λ b, Z.land (byte_val b) 0x80 ≠ 0) (drop (Z.to_nat offset) data) →
     (decode_varint data offset).2 = len data).
Proof.
  intros Ho. split; [apply decode_varint_nonneg|].
  assert (len data ≤ offset → decode_varint data offset = (0, offset)) as Hpast.
  { intros Hlen. unfold decode_varint. rewrite drop_ge; [done|]. unfold len in Hlen. lia. }
  split.
  { destruct (decide (len data ≤ offset)) as [Hge|Hlt].
    - rewrite (Hpast Hge). simpl. lia.
    - pose proof (decode_varint_pos data offset ltac:(lia)). lia. }
  split; [done|]. split.
  { intros Hlt. apply decode_varint_progress. lia. }
  intros Hle Hall. unfold decode_varint.
  rewrite varint_loop_truncated by done.
  unfold len. rewrite length_drop. unfold len in Hle. lia.
Qed.

Lemma decode_varint_bounds_witness :
  (decode_varint [x01; x80; x80] 1).2 = 3
  ∧ decode_varint [x01; x80; x80] 3 = (0, 3).
Proof.
  destruct (decode_varint_bounds [x01; x80; x80] 1 ltac:(lia))
    as (_ & _ & _ & _ & Hcut).
  destruct (decode_varint_bounds [x01; x80; x80] 3 ltac:(lia))
    as (_ & _ & Hpast & _).
  split.
  - exact (Hcut ltac:(vm_compute; discriminate)
                 ltac:(repeat constructor; vm_compute; discriminate)).
  - apply Hpast. vm_compute. discriminate.
Defined.

Lemma field_map_lookup n key :
  field_map !! n = Some key →
  (n, key) ∈ [(1, "id"); (2, "progress"); (3, "mode"); (4, "fontsize");
              (5, "color"); (8, "ctime"); (9, "weight"); (11, "pool")].
Proof.
  unfold field_map. intros Hn.
  repeat (rewrite lookup_insert in Hn; case_decide;
          [injection Hn as <-; subst n; set_solver|]).
  rewrite lookup_singleton in Hn. case_decide; [|done].
  injection Hn as <-; subst n. set_solver.
Qed.

Lemma string_map_lookup n key :
  string_map !! n = Some key →
  (n, key) ∈ [(6, "midHash"); (7, "content"); (12, "idStr")].
Proof.
  unfold string_map. intros Hn.
  repeat (rewrite lookup_insert in Hn; case_decide;
          [injection Hn as <-; subst n; set_solver|]).
  rewrite lookup_singleton in Hn. case_decide; [|done].
  injection Hn as <-; subst n. set_solver.
Qed.

(** No key stands for two numbers, and no key is both a number's and a
    string's. *)
Lemma field_map_inj n m key :
  field_map !! n = Some key → field_map !! m = Some key → n = m.
Proof.
  intros Hn%field_map_lookup Hm%field_map_lookup.
  set_unfold in Hn. set_unfold in Hm. naive_solver.
Qed.

Lemma string_map_inj n m key :
  string_map !! n = Some key → string_map !! m = Some key → n = m.
Proof.
  intros Hn%string_map_lookup Hm%string_map_lookup.
  set_unfold in Hn. set_unfold in Hm. naive_solver.
Qed.

Lemma field_string_disjoint n m key :
  field_map !! n = Some key → string_map !! m = Some key → False.
Proof.
  intros Hn%field_map_lookup Hm%string_map_lookup.
  set_unfold in Hn. set_unfold in Hm. naive_solver.
Qed.

Section RecordAttributes.
Context `{Platform}.

Lemma last_varint_snoc n fields f :
  last_varint n (fields ++ [f])
  = match f with
    | WVarint m v => if decide (m = n) then Some v else last_varint n fields
    | WBytes _ _ => last_varint n fields
    end.
Proof.
  unfold last_varint. rewrite omap_app. simpl.
  destruct f as [m v|m p]; [|by rewrite app_nil_r].
  destruct (decide (m = n)); [by rewrite last_snoc|by rewrite app_nil_r].
Qed.

Lemma last_bytes_snoc n fields f :
  last_bytes n (fields ++ [f])
  = match f with
    | WBytes m p => if decide (m = n) then Some p else last_bytes n fields
    | WVarint _ _ => last_bytes n fields
    end.
Proof.
  unfold last_bytes. rewrite omap_app. simpl.
  destruct f as [m v|m p]; [by rewrite app_nil_r|].
  destruct (decide (m = n)); [by rewrite last_snoc|by rewrite app_nil_r].
Qed.

(** The dictionary of a list of fields, key by key. *)
Lemma element_of_fields_int fields n key :
  field_map !! n = Some key →
  foldl element_of_field ∅ fields !! key = PyInt <$> last_varint n fields.
Proof.
  intros Hkey. induction fields as [|f fields IH] using rev_ind; [done|].
  rewrite foldl_app, last_varint_snoc. simpl.
  destruct f as [m v|m p]; simpl.
  - destruct (field_map !! m) as [key'|] eqn:Hm.
    + destruct (decide (m = n)) as [->|Hne].
      * rewrite Hkey in Hm. injection Hm as <-. by rewrite lookup_insert_eq.
      * rewrite lookup_insert_ne; [done|].
        intros ->. apply Hne. by eapply field_map_inj.
    + destruct (decide (m = n)) as [->|Hne]; [congruence|done].
  - destruct (string_map !! m) as [key'|] eqn:Hm; [|done].
    rewrite lookup_insert_ne; [done|].
    intros ->. by eapply field_string_disjoint.
Qed.

Lemma element_of_fields_str fields n key :
  string_map !! n = Some key →
  foldl element_of_field ∅ fields !! key
  = (λ p, PyStr (decode_string p 0 (len p))) <$> last_bytes n fields.
Proof.
  intros Hkey. induction fields as [|f fields IH] using rev_ind; [done|].
  rewrite foldl_app, last_bytes_snoc. simpl.
  destruct f as [m v|m p]; simpl.
  - destruct (field_map !! m) as [key'|] eqn:Hm; [|done].
    rewrite lookup_insert_ne; [done|].
    intros ->. by eapply field_string_disjoint.
  - destruct (string_map !! m) as [key'|] eqn:Hm.
    + destruct (decide (m = n)) as [->|Hne].
      * rewrite Hkey in Hm. injection Hm as <-. by rewrite lookup_insert_eq.
      * rewrite lookup_insert_ne; [done|].
        intros ->. apply Hne. by eapply string_map_inj.
    + destruct (decide (m = n)) as [->|Hne]; [congruence|done].
Qed.

Lemma get_int_fields fields n key dflt :
  field_map !! n = Some key →
  get_int (foldl element_of_field ∅ fields) key dflt
  = default dflt (last_varint n fields).
Proof.
  intros Hkey. unfold get_int. rewrite (element_of_fields_int _ n) by done.
  by destruct (last_varint n fields).
Qed.

Lemma get_str_fields fields n key dflt :
  string_map !! n = Some key →
  get_str (foldl element_of_field ∅ fields) key dflt
  = default dflt ((λ p, decode_string p 0 (len p)) <$> last_bytes n fields).
Proof.
  intros Hkey. unfold get_str. rewrite (element_of_fields_str _ n) by done.
  by destruct (last_bytes n fields).
Qed.

(** The typing of the dictionary is kept by every step of the loop. *)
Lemma element_loop_typed fuel data pos element r :
  typed_element element →
  element_loop fuel data pos element = Some r →
  typed_element r.
Proof.
  revert pos element.
  induction fuel as [|fuel IH]; intros pos element Htyped; simpl.
  - destruct (pos <? len data); [done|]. by intros [= <-].
  - destruct (pos <? len data); [|by intros [= <-]].
    destruct (element_step data pos element) as [[p e]|] eqn:Hs; [|by intros [= <-]].
    apply IH. revert Hs. unfold element_step.
    destruct (decode_varint data pos) as [tag p1].
    pose proof (decode_varint_nonneg data p1) as Hv.
    destruct (decode_varint data p1) as [v p2]. simpl in Hv.
    destruct (Z.land tag 7 =? 0).
    + destruct (field_map !! _) as [key|] eqn:Hkey; intros [= <- <-]; [|done].
      intros key' v'. rewrite lookup_insert. case_decide as Hk.
      * intros [= <-]. subst key'. split; [done|by eexists].
      * apply Htyped.
    + destruct (Z.land tag 7 =? 2); [|done].
      destruct (string_map !! _) as [key|] eqn:Hkey; intros [= <- <-]; [|done].
      intros key' v'. rewrite lookup_insert. case_decide as Hk.
      * intros [= <-]. subst key'. by eexists.
      * apply Htyped.
Qed.

Lemma decode_danmaku_element_typed data d :
  decode_danmaku_element data = Some d → typed_element d ∧ d ≠ ∅.
Proof.
  unfold decode_danmaku_element.
  destruct (element_loop (length data) data 0 ∅) as [element|] eqn:Hloop; [|done].
  destruct (decide (element = ∅)); [done|]. intros [= <-]. split; [|done].
  eapply element_loop_typed; [|exact Hloop].
  intros key v. by rewrite lookup_empty.
Qed.

Lemma get_int_nonneg d key dflt :
  typed_element d → 0 ≤ dflt → 0 ≤ get_int d key dflt.
Proof.
  intros Htyped Hd. unfold get_int.
  destruct (d !! key) as [[z|s]|] eqn:Hk; [|done..].
  by destruct (Htyped key _ Hk).
Qed.

(** Every record of a decoded response was made from a dictionary of the
    record decoder. *)
Lemma response_loop_elements fuel data pos (P : DanmakuElement → Prop) acc r :
  (∀ sub d, decode_danmaku_element sub = Some d → P (DanmakuElement_init d)) →
  Forall P acc →
  response_loop fuel data pos acc = Some r →
  Forall P r.
Proof.
  intros HP. revert pos acc.
  induction fuel as [|fuel IH]; intros pos acc Hacc; simpl.
  - destruct (pos <? len data); [done|]. by intros [= <-].
  - destruct (pos <? len data); [|by intros [= <-]].
    unfold response_step.
    destruct (decode_varint data pos) as [tag p1].
    destruct (decode_varint data p1) as [v p2].
    destruct ((Z.shiftr tag 3 =? 1) && (Z.land tag 7 =? 2)).
    + destruct (decode_danmaku_element _) as [d|] eqn:Hd; apply IH; [|done].
      apply Forall_app. split; [done|]. constructor; [|constructor].
      by eapply HP.
    + destruct (Z.land tag 7 =? 0); [by apply IH|].
      destruct (Z.land tag 7 =? 2); [by apply IH|by intros [= <-]].
Qed.
End RecordAttributes.

(** X3. A record written as fields encoded in full is read back: the
    dictionary is the one the fields build in order (an empty one being
    reported as absent), and the record made from it has, for each
    attribute, the value of the last field with the attribute's number and
    the default of [DanmakuElement] when there is none; field numbers that
    are not mapped, and fields of the other wire kind under a mapped
    number, change nothing. *)
Theorem record_round_trip `{Platform} (fields : list wire_field) :
  Forall wf_field fields →
  decode_danmaku_element (encode_message fields)
  = (if decide (foldl element_of_field ∅ fields = ∅) then None
     else Some (foldl element_of_field ∅ fields))
  ∧ DanmakuElement_init (foldl element_of_field ∅ fields)
    = {| id := default 0 (last_varint 1 fields);
         progress := default 0 (last_varint 2 fields);
         mode := default 1 (last_varint 3 fields);
         fontsize := default 25 (last_varint 4 fields);
         color := default 16777215 (last_varint 5 fields);
         ctime := default 0 (last_varint 8 fields);
         pool := default 0 (last_varint 11 fields);
         midHash := default [] ((λ p, decode_string p 0 (len p)) <$> last_bytes 6 fields);
         content := default [] ((λ p, decode_string p 0 (len p)) <$> last_bytes 7 fields);
         weight := default 0 (last_varint 9 fields) |}.
Proof.
  intros Hwf. split.
  - destruct (element_loop_fields fields [] 0 ∅ (foldl element_of_field ∅ fields) Hwf
                eq_refl) as [fuel' Hloop].
    rewrite app_nil_r in Hloop. apply element_loop_eq in Hloop.
    unfold decode_danmaku_element. by rewrite Hloop.
  - unfold DanmakuElement_init.
    rewrite (get_int_fields _ 1), (get_int_fields _ 2), (get_int_fields _ 3),
      (get_int_fields _ 4), (get_int_fields _ 5), (get_int_fields _ 8),
      (get_int_fields _ 11), (get_int_fields _ 9),
      (get_str_fields _ 6), (get_str_fields _ 7) by done.
    done.
Qed.

Lemma record_round_trip_witness :
  decode_danmaku_element (H:=ascii_platform)
    (encode_message [WVarint 2 1000; WBytes 7 [x68; x69]; WVarint 2 1500;
                     WVarint 10 9; WBytes 2 [x01]])
  = Some {[ "progress" := PyInt 1500; "content" := PyStr [104%N; 105%N] ]}.
Proof.
  destruct (record_round_trip (H:=ascii_platform)
    [WVarint 2 1000; WBytes 7 [x68; x69]; WVarint 2 1500; WVarint 10 9; WBytes 2 [x01]])
    as [Hdict _].
  - repeat constructor; simpl; lia.
  - rewrite Hdict. vm_compute. reflexivity.
Defined.

(** X4. What comes out of the decoder is typed and never negative: a
    dictionary reported by the record decoder is not empty; an integer in
    it is not negative and stands under one of the keys id, progress,
    mode, fontsize, color, ctime, weight, pool; a string in it stands
    under one of the keys midHash, content, idStr; so every numeric
    attribute of every record of a decoded response is at least 0. *)
Theorem decoded_records_typed_nonneg `{Platform} (data : list byte) (r : DanmakuElement) :
  r ∈ decode_danmaku_response data →
  (∀ sub d, decode_danmaku_element sub = Some d →
     d ≠ ∅
     ∧ ∀ key v, d !! key = Some v →
         match v with
         | PyInt z =>
             0 ≤ z
             ∧ key ∈ ["id"; "progress"; "mode"; "fontsize"; "color"; "ctime"; "weight";
                       "pool"]
         | PyStr _ => key ∈ ["midHash"; "content"; "idStr"]
         end)
  ∧ 0 ≤ id r ∧ 0 ≤ progress r ∧ 0 ≤ mode r ∧ 0 ≤ fontsize r
  ∧ 0 ≤ color r ∧ 0 ≤ ctime r ∧ 0 ≤ pool r ∧ 0 ≤ weight r.
Proof.
  intros Hr. split.
  { intros sub d [Htyped Hne]%decode_danmaku_element_typed. split; [done|].
    intros key v Hkey. specialize (Htyped key v Hkey). destruct v as [z|str].
    - destruct Htyped as [Hz [n Hn%field_map_lookup]]. split; [done|].
      repeat (apply elem_of_cons in Hn as [[= _ ->]|Hn]; [set_solver|]).
      by apply elem_of_nil in Hn.
    - destruct Htyped as [n Hn%string_map_lookup].
      repeat (apply elem_of_cons in Hn as [[= _ ->]|Hn]; [set_solver|]).
      by apply elem_of_nil in Hn. }
  destruct (response_loop_total data) as [l Hl].
  rewrite (decode_danmaku_response_eq _ _ _ Hl) in Hr.
  pose proof (response_loop_elements (length data) data 0
    (λ r, 0 ≤ id r ∧ 0 ≤ progress r ∧ 0 ≤ mode r ∧ 0 ≤ fontsize r
          ∧ 0 ≤ color r ∧ 0 ≤ ctime r ∧ 0 ≤ pool r ∧ 0 ≤ weight r) [] l) as Hall.
  eapply Forall_forall in Hall; [exact Hall| |constructor|exact Hl|exact Hr].
  intros sub d [Htyped _]%decode_danmaku_element_typed. simpl.
  repeat split; apply get_int_nonneg; done.
Qed.

Lemma decoded_records_typed_nonneg_witness :
  0 ≤ progress (record_at 1000 7) ∧ 0 ≤ ctime (record_at 1000 7).
Proof.
  destruct (decoded_records_typed_nonneg (H:=ascii_platform)
    (payload_of [(1000, 7)]) (record_at 1000 7))
    as (_ & _ & Hp & _ & _ & _ & Hc & _).
  - vm_compute. left.
  - split; [exact Hp|exact Hc].
Defined.

(** * Further properties of the fingerprint and the merge *)

Lemma string_free_app c s t :
  string_free c s → string_free c t → string_free c (s +:+ t).
Proof. induction s as [|a s IH]; simpl; [done|]. intros [? ?] ?. split; auto. Qed.









(** * Further properties of the output order *)

Lemma filter_insert_by_progress (p : Z) x l :
  filter (λ y, progress y = p) (insert_by_progress x l)
  = filter (λ y, progress y = p) (x :: l).
Proof.
  induction l as [|y l IH]; simpl; [done|].
  destruct (progress x <=? progress y) eqn:Hle; [done|].
  apply Z.leb_gt in Hle. rewrite filter_cons, IH, !filter_cons.
  destruct (decide (progress x = p)) as [Hx|Hx]; [|done].
  destruct (decide (progress y = p)) as [Hy|Hy]; [lia|done].
Qed.

(** X7. The order in which the records are written: ascending by offset,
    a rearrangement of the list that was fetched, and stable, records of
    one offset staying in the order they were fetched in. *)
Theorem sort_by_progress_stable (l : list DanmakuElement) (p : Z) :
  StronglySorted (λ a b, progress a ≤ progress b) (sort_by_progress l)
  ∧ sort_by_progress l ≡ₚ l
  ∧ filter (λ y, progress y = p) (sort_by_progress l) = filter (λ y, progress y = p) l.
Proof.
  split; [apply sort_by_progress_sorted|]. split; [apply sort_by_progress_perm|].
  induction l as [|x l IH]; [done|].
  simpl. by rewrite filter_insert_by_progress, !filter_cons, IH.
Qed.

(** * Further properties of the segment fetch *)

Section LiveList.
Context `{Platform} {Server : Type} (serve : Server → request → http_result * Server).
#[local] Abbreviation session := (session (Server:=Server)).



End LiveList.


(** * Further properties of the acquisition loops *)

Section Growth.
Context `{Platform}.

Lemma grows_refl L (P P' : gset string) : P ⊆ P' → grows L P L P'.
Proof.
  intros HP. exists []. rewrite app_nil_r. split; [done|]. split; [constructor|].
  split; [by intros d ?%elem_of_nil|]. split; [done|].
  rewrite fingerprints_nil. apply empty_subseteq.
Qed.

Lemma grows_trans L P L1 P1 L2 P2 :
  grows L P L1 P1 → grows L1 P1 L2 P2 → grows L P L2 P2.
Proof.
  intros (m1 & -> & Hnd1 & Hf1 & HP1 & Hin1) (m2 & -> & Hnd2 & Hf2 & HP2 & Hin2).
  exists (m1 ++ m2). split; [by rewrite app_assoc|]. split; [|split; [|split]].
  - rewrite fmap_app. apply NoDup_app. split; [done|]. split; [|done].
    intros u (d & -> & Hd)%list_elem_of_fmap (d' & Heq & Hd')%list_elem_of_fmap.
    apply (Hf2 d' Hd'). rewrite <-Heq, fingerprints_app.
    apply elem_of_union_l, elem_of_union_r, elem_of_fingerprints. by exists d.
  - intros d [Hd|Hd]%elem_of_app; [by apply Hf1|].
    intros Hin. apply (Hf2 d Hd). rewrite fingerprints_app.
    revert Hin. rewrite !elem_of_union. intros [?|?]; [tauto|].
    right. by apply HP1.
  - by etrans.
  - rewrite fingerprints_app. apply union_subseteq. split; [by etrans|done].
Qed.

Lemma grows_merge L (P : gset string) new_list :
  grows L P (L ++ first_seen (fingerprints L ∪ P) new_list)
    (fingerprints new_list ∪ fingerprints L ∪ P).
Proof.
  eexists. split; [done|]. split; [apply first_seen_NoDup|].
  split; [intros d; apply first_seen_fresh|].
  split; [apply union_subseteq_r|].
  pose proof (first_seen_fingerprints (fingerprints L ∪ P) new_list) as Hfp.
  intros u Hu.
  assert (u ∈ fingerprints (first_seen (fingerprints L ∪ P) new_list)
              ∪ (fingerprints L ∪ P)) as Hin by (apply elem_of_union; by left).
  rewrite Hfp in Hin. revert Hin. rewrite !elem_of_union. tauto.
Qed.

Context {Server : Type} (serve : Server → request → http_result * Server).
#[local] Abbreviation session := (session (Server:=Server)).

Lemma segment_body_grows' cid segment_index L (s : session) r s' :
  segment_body serve cid segment_index L s = Some (r, s') →
  grows L (id_pool s)
    (match r with Break (_, L') | Continue (_, L') => L' end) (id_pool s').
Proof.
  intros Hb.
  destruct (segment_body_grows serve cid segment_index L s r s' Hb)
    as (more & HL & Hnd & Hfresh & Hpool & Hin & _).
  exists more. split; [by destruct r as [[? ?]|[? ?]]|]. done.
Qed.

Lemma segment_loop_grows fuel cid segment_index L (s : session) L' s' :
  segment_loop serve fuel cid segment_index L s = Some (L', s') →
  grows L (id_pool s) L' (id_pool s').
Proof.
  revert segment_index L s.
  induction fuel as [|fuel IH]; intros idx L s; simpl.
  - destruct (idx <=? 100); [done|]. intros [= <- <-]. by apply grows_refl.
  - destruct (idx <=? 100); [|intros [= <- <-]; by apply grows_refl].
    unfold mbind, M_bind.
    destruct (segment_body serve cid idx L s) as [[r s1]|] eqn:Hb; [|done].
    apply segment_body_grows' in Hb.
    destruct r as [[idx1 L1]|[idx1 L1]].
    + intros Hloop%IH. by eapply grows_trans.
    + by intros [= <- <-].
Qed.

Lemma history_query_grows cid st (s : session) st' s' :
  history_query serve cid st s = Some (st', s') →
  grows (aldanmu st) (id_pool s) (aldanmu st') (id_pool s').
Proof.
  unfold history_query, mbind, M_bind. rewrite http_get_eq.
  destruct (serve (srv s) _) as [[status content|] srv']; simpl.
  2: { intros [= <- <-]. by apply grows_refl. }
  destruct (status =? 200).
  2: { destruct (status =? 412); intros [= <- <-]; by apply grows_refl. }
  destruct (len content =? 0); [intros [= <- <-]; by apply grows_refl|].
  destruct (decode_danmaku_response content) as [|d ds];
    [intros [= <- <-]; by apply grows_refl|].
  rewrite merge_danmaku_in_place_eq. simpl.
  destruct (fromtimestamp _); intros [= <- <-]; simpl; apply grows_merge.
Qed.

Lemma history_body_grows cid ondanmu st (s : session) r s' :
  history_body serve cid ondanmu st s = Some (r, s') →
  grows (aldanmu st) (id_pool s)
    (aldanmu match r with Break st' | Continue st' => st' end) (id_pool s').
Proof.
  unfold history_body, mbind, M_bind.
  set (s0 := {| srv := srv s; id_pool := id_pool s;
                trace := trace s ++ (if first_date st =? 0 then [] else [EvSleep 2]) |}).
  assert ((if negb (first_date st =? 0) then sleep 2 else mret ()) s = Some ((), s0)) as ->.
  { unfold s0. destruct (first_date st =? 0); simpl; [|done].
    unfold mret, M_ret. rewrite app_nil_r. by destruct s. }
  assert (∀ st1 s1, grows (aldanmu st) (id_pool s) (aldanmu st1) (id_pool s1) →
    ((if sparse ondanmu (ldanmu st1) then mret (Break st1)
      else if first_date st1 =? 0
           then mret (Continue {| current_date := current_date st1 - timedelta_days 1;
                                  first_date := first_date st1;
                                  ldanmu := ldanmu st1; aldanmu := aldanmu st1 |})
           else mret (Continue st1)) : M (loop_step history_state)) s1 = Some (r, s') →
    grows (aldanmu st) (id_pool s)
      (aldanmu match r with Break st' | Continue st' => st' end) (id_pool s')) as Hend.
  { intros st1 s1 Hg. destruct (sparse ondanmu (ldanmu st1)); [by intros [= <- <-]|].
    destruct (first_date st1 =? 0); by intros [= <- <-]. }
  destruct ((first_date st =? 0) || dense ondanmu (ldanmu st)).
  - destruct (history_query serve cid st s0) as [[st1 s1]|] eqn:Hq; [|done].
    apply history_query_grows in Hq. by apply Hend.
  - apply Hend. by apply grows_refl.
Qed.

Lemma history_loop_grows fuel cid ondanmu start_date st (s : session) L s' :
  history_loop serve fuel cid ondanmu start_date st s = Some (L, s') →
  grows (aldanmu st) (id_pool s) L (id_pool s').
Proof.
  revert st s. induction fuel as [|fuel IH]; intros st s; simpl.
  - destruct (start_date <=? current_date st); [done|].
    intros [= <- <-]. by apply grows_refl.
  - destruct (start_date <=? current_date st);
      [|intros [= <- <-]; by apply grows_refl].
    unfold mbind, M_bind.
    destruct (history_body serve cid ondanmu st s) as [[r s1]|] eqn:Hb; [|done].
    apply history_body_grows in Hb. destruct r as [st1|st1].
    + intros Hloop%IH. by eapply grows_trans.
    + by intros [= <- <-].
Qed.
End Growth.

(** * Further properties of the orchestrator *)

Section Orchestrator.
Context `{Platform} {Server : Type} (serve : Server → request → http_result * Server).
#[local] Abbreviation session := (session (Server:=Server)).

(** The probe: one request for segment 1; the pool is not touched and
    the list handed over is empty; the estimate is twenty times the
    number of records decoded, or 5000 when there are none, and so always
    positive. *)
Lemma get_current_danmaku_info_spec cid (s : session) :
  ∃ maxlimit,
    get_current_danmaku_info serve cid s
    = Some ((maxlimit, []),
            {| srv := (serve (srv s) (SegmentReq cid 1)).2; id_pool := id_pool s;
               trace := trace s ++ [EvGet (SegmentReq cid 1)] |})
    ∧ maxlimit
      = match probe_sample (serve (srv s) (SegmentReq cid 1)).1 with
        | [] => 5000
        | first_segment => len first_segment * 20
        end
    ∧ 0 < maxlimit.
Proof.
  unfold get_current_danmaku_info, mbind, M_bind. rewrite http_get_eq.
  destruct (serve (srv s) _) as [[status content|] srv']; simpl;
    [|by eexists].
  destruct ((status =? 200) && (0 <? len content)); [|by eexists].
  destruct (decode_danmaku_response content) as [|d l]; [by eexists|].
  eexists. split; [done|]. split; [done|].
  pose proof (len_nonneg l). unfold len in *. simpl. lia.
Qed.

(** X9. What the orchestrator returns, whenever it returns: the live list
    followed by the history list, as the two fetches leave them on the
    session the probe hands on. The probe's estimate is 20 times the
    number of records it decoded, or 5000 when it decoded none, so it is
    always positive: the test [maxlimit > 0] never fails, and the history
    fetch is called (with this estimate as its target) exactly when a
    publish date is given; without one it returns the empty list. Since
    both lists are filled through the one pool, no two records of the
    result share a fingerprint and the final merge with its fresh pool
    drops nothing; no record of the result has a fingerprint the pool held
    at the start, and the pool holds them all at the end. *)
Theorem complete_is_live_then_history (fuel : nat) (now : datetime) (cid : Z)
    (video_date : option datetime) (start_days : Z) (end_days : option Z)
    (s : session) result s' :
  get_complete_danmaku_js_style serve fuel now cid video_date start_days end_days s
  = Some (result, s') →
  ∃ maxlimit live s2 hist,
    maxlimit
    = match probe_sample (serve (srv s) (SegmentReq cid 1)).1 with
      | [] => 5000
      | first_segment => len first_segment * 20
      end
    ∧ 0 < maxlimit
    ∧ get_segmented_danmaku serve cid
        {| srv := (serve (srv s) (SegmentReq cid 1)).2; id_pool := id_pool s;
           trace := trace s ++ [EvGet (SegmentReq cid 1)] |} = Some (live, s2)
    ∧ get_history_danmaku_js_style serve fuel now cid video_date start_days 1 maxlimit s2
      = Some (hist, s')
    ∧ result = live ++ hist
    ∧ NoDup (get_unique_id <$> result)
    ∧ (∀ d, d ∈ result → get_unique_id d ∉ id_pool s)
    ∧ fingerprints result ⊆ id_pool s'.
Proof.
  unfold get_complete_danmaku_js_style, mbind, M_bind.
  destruct (get_current_danmaku_info_spec cid s) as (maxlimit & -> & Hmax & Hpos).
  cbv beta iota zeta.
  assert ((0 <? maxlimit) = true) as -> by (apply Z.ltb_lt; lia).
  rewrite andb_true_r.
  destruct (get_segmented_danmaku serve cid _) as [[live s2]|] eqn:Hseg; [|done].
  intros Hrun.
  assert (∃ hist,
    get_history_danmaku_js_style serve fuel now cid video_date start_days 1 maxlimit s2
    = Some (hist, s')
    ∧ result = first_seen ∅ (live ++ hist)) as (hist & Hhist & ->).
  { revert Hrun. destruct video_date as [vd|]; cbn [truthy].
    - assert (∀ e, get_history_danmaku_js_style serve fuel now cid (Some vd) start_days e
                     maxlimit s2
                   = get_history_danmaku_js_style serve fuel now cid (Some vd) start_days 1
                     maxlimit s2) as He.
      { intros e. unfold get_history_danmaku_js_style. by destruct (negb (e =? -1)). }
      destruct end_days as [e|]; [rewrite (He e)|]; clear He.
      all: cbv beta iota zeta.
      all: destruct (get_history_danmaku_js_style serve fuel now cid (Some vd) start_days 1
                  maxlimit s2) as [[hist s3]|]; [|done].
      all: unfold mret, M_ret; intros [= <- <-]; exists hist; split; [done|].
      all: by rewrite merge_all_eq, !concat_append_if_nonempty.
    - unfold mret, M_ret. intros [= <- <-]. exists []. split; [done|].
      by rewrite merge_all_eq, !concat_append_if_nonempty, app_nil_r. }
  pose proof (segment_loop_grows serve _ _ _ _ _ _ _ Hseg)
    as (m1 & Hl & Hnd1 & Hf1 & HP1 & Hin1).
  simpl in Hl, Hf1, HP1. subst m1.
  assert (grows [] (id_pool s2) hist (id_pool s')) as (m2 & Hh & Hnd2 & Hf2 & HP2 & Hin2).
  { revert Hhist. unfold get_history_danmaku_js_style. destruct video_date as [vd|].
    - intros Hloop%history_loop_grows. exact Hloop.
    - intros [= <- <-]. by apply grows_refl. }
  simpl in Hh. subst m2.
  assert (NoDup (get_unique_id <$> (live ++ hist))) as Hnd.
  { rewrite fmap_app. apply NoDup_app. split; [done|]. split; [|done].
    intros u (d & -> & Hd)%list_elem_of_fmap (d' & Heq & Hd')%list_elem_of_fmap.
    apply (Hf2 d' Hd'). rewrite <-Heq. apply elem_of_union_r, Hin1.
    apply elem_of_fingerprints. by exists d. }
  assert (∀ d, d ∈ live ++ hist → get_unique_id d ∉ id_pool s) as Hfresh.
  { intros d [Hd|Hd]%elem_of_app Hin.
    - apply (Hf1 d Hd). by apply elem_of_union_r.
    - apply (Hf2 d Hd). by apply elem_of_union_r, HP1. }
  rewrite first_seen_id; [|done|by intros d _ ?%elem_of_empty].
  exists maxlimit, live, s2, hist. split; [done|]. split; [done|]. split; [done|].
  split; [done|]. split; [done|]. split; [done|]. split; [done|].
  rewrite fingerprints_app. apply union_subseteq. split; [by etrans|done].
Qed.

End Orchestrator.

Lemma complete_is_live_then_history_witness :
  ∃ result s',
    get_complete_danmaku_js_style (H:=ascii_platform) scripted_server
      1 1700100000000000 42 (Some 0) 0 None
      {| srv := [Response 200 (payload_of [(1000, 1700000000)]);
                 Response 200 (payload_of [(1000, 1700000000)]);
                 Response 304 [];
                 Response 200 (payload_of [(2000, 1600000000)])];
         id_pool := ∅; trace := [] |} = Some (result, s')
    ∧ result = [record_at 1000 1700000000; record_at 2000 1600000000]
    ∧ NoDup (get_unique_id (H:=ascii_platform) <$> result).
Proof.
  eexists _, _. split; [vm_compute; reflexivity|]. split; [vm_compute; reflexivity|].
  edestruct (complete_is_live_then_history (H:=ascii_platform) scripted_server
    1 1700100000000000 42 (Some 0) 0 None
    {| srv := [Response 200 (payload_of [(1000, 1700000000)]);
               Response 200 (payload_of [(1000, 1700000000)]);
               Response 304 [];
               Response 200 (payload_of [(2000, 1600000000)])];
       id_pool := ∅; trace := [] |})
    as (maxlimit & live & s2 & hist & _ & _ & _ & _ & _ & Hnd & _).
  - vm_compute. reflexivity.
  - exact Hnd.
Defined.

(** * Further properties of the history fetch *)

Section HistoryFetch.
Context `{Platform} {Server : Type} (serve : Server → request → http_result * Server).
#[local] Abbreviation session := (session (Server:=Server)).

End HistoryFetch.



Section DayByDay.
Context `{Platform} {Server : Type} (serve : Server → request → http_result * Server).
#[local] Abbreviation session := (session (Server:=Server)).

Lemma history_query_fails cid st (s : session) :
  round_fails (serve (srv s) (HistoryReq cid (date_of (current_date st)))).1 →
  history_query serve cid st s
  = Some (set_ldanmu [] st,
          {| srv := (serve (srv s) (HistoryReq cid (date_of (current_date st)))).2;
             id_pool := id_pool s;
             trace := trace s ++ [EvGet (HistoryReq cid (date_of (current_date st)))] |}).
Proof.
  unfold history_query, round_fails, mbind, M_bind. rewrite http_get_eq.
  destruct (serve (srv s) _) as [[status content|] srv1]; cbn [fst snd]; [|done].
  intros Hfail. destruct (status =? 200) eqn:H200.
  - apply Z.eqb_eq in H200. destruct Hfail as [?|[->|Hd]]; [done|done|].
    destruct (len content =? 0); [done|]. by rewrite Hd.
  - by destruct (status =? 412).
Qed.

Lemma date_of_days_before (d : datetime) (k : Z) :
  date_of (d - timedelta_days k) = date_of d - k.
Proof.
  unfold date_of, timedelta_days.
  replace (d - k * 86400000000) with (d + (- k) * 86400000000) by lia.
  rewrite Z.div_add by lia. lia.
Qed.

Lemma history_loop_day_by_day fuel cid ondanmu start_date st (s : session) :
  ondanmu ≤ 0 →
  (∀ server r, round_fails (serve server r).1) →
  first_date st = 0 → ldanmu st = [] →
  (Z.to_nat ((current_date st - start_date) `div` 86400000000 + 1) ≤ fuel)%nat →
  ∃ s',
    history_loop serve fuel cid ondanmu start_date st s = Some (aldanmu st, s')
    ∧ id_pool s' = id_pool s
    ∧ trace s'
      = trace s ++ ((λ k, EvGet (HistoryReq cid (date_of (current_date st) - k))) <$>
                    seqZ 0 ((current_date st - start_date) `div` 86400000000 + 1)).
Proof.
  intros Htarget Hserve. revert st s.
  assert (sparse ondanmu [] = false) as Hsparse.
  { apply not_true_iff_false. rewrite sparse_iff. unfold len. simpl. lia. }
  induction fuel as [|fuel IH]; intros st s Hfirst Hl Hfuel; simpl.
  all: destruct (start_date <=? current_date st) eqn:Hle.
  all: try (apply Z.leb_gt in Hle; exists s; split; [done|]; split; [done|];
            rewrite seqZ_nil; [by rewrite app_nil_r|];
            pose proof (Z.div_lt_upper_bound (current_date st - start_date)
                          86400000000 0 ltac:(lia) ltac:(lia)); lia).
  all: apply Z.leb_le in Hle.
  all: pose proof (Z.div_pos (current_date st - start_date) 86400000000
                     ltac:(lia) ltac:(lia)) as Hdiv.
  - lia.
  - unfold mbind, M_bind, history_body, mbind, M_bind.
    rewrite Hfirst. cbn [Z.eqb negb orb]. unfold mret at 1, M_ret at 1.
    rewrite history_query_fails by apply Hserve.
    cbn [set_ldanmu ldanmu first_date current_date aldanmu]. rewrite Hsparse, Hfirst.
    cbn [Z.eqb]. unfold mret, M_ret.
    set (st1 := {| current_date := current_date st - timedelta_days 1; first_date := 0;
                   ldanmu := []; aldanmu := aldanmu st |}).
    set (s1 := {| srv := _; id_pool := id_pool s; trace := _ |}).
    assert ((current_date st1 - start_date) `div` 86400000000
            = (current_date st - start_date) `div` 86400000000 - 1) as Hdays.
    { unfold st1, timedelta_days. cbn [current_date].
      replace (current_date st - 1 * 86400000000 - start_date)
        with (current_date st - start_date + (-1) * 86400000000) by lia.
      rewrite Z.div_add by lia. lia. }
    destruct (IH st1 s1 eq_refl eq_refl) as (s' & Hloop & HP & Ht); [lia|].
    exists s'. split; [exact Hloop|]. split; [by rewrite HP|].
    rewrite Ht, Hdays. unfold s1, st1. cbn [trace current_date].
    rewrite date_of_days_before, <-(assoc_L (++)). f_equal.
    rewrite (seqZ_cons 0 ((current_date st - start_date) `div` 86400000000 + 1)) by lia.
    rewrite fmap_cons, Z.sub_0_r. cbn [app]. f_equal.
    replace (Z.pred ((current_date st - start_date) `div` 86400000000 + 1))
      with ((current_date st - start_date) `div` 86400000000 - 1 + 1) by lia.
    change (Z.succ 0) with (1 + 0). rewrite <-fmap_add_seqZ, <-list_fmap_compose.
    apply list_fmap_ext. intros _ k _. simpl. do 2 f_equal. lia.
Qed.
End DayByDay.

(** X11. The day-by-day walk. Within the range on which the date
    arithmetic and the float product of the source are defined (outside
    it the source raises [OverflowError]): with a target that is not
    positive no batch is ever below the threshold, and when every round
    fails (exception, another status than 200, empty payload, payload
    without records) the boundary stays 0; the fetch then asks for every
    calendar day from yesterday back to the start date, one request a day
    and no sleep in between, leaves the pool alone and returns the empty
    list. The number of requests is the number of whole days between the
    start date and yesterday, plus one; none when the start date is after
    yesterday. *)
Theorem history_walks_day_by_day `{Platform} {Server : Type}
    (serve : Server → request → http_result * Server)
    (fuel : nat) (now : datetime) (cid : Z) (video_date : datetime)
    (start_days end_days target_count : Z) (s : session (Server:=Server)) :
  target_count ≤ 0 →
  float_of_int_defined target_count →
  is_datetime now → is_datetime (now - timedelta_days 1) →
  is_datetime video_date → is_timedelta_days start_days →
  is_datetime (video_date + timedelta_days start_days) →
  is_datetime (video_date + timedelta_days start_days - timedelta_days 1) →
  (∀ server r, round_fails (serve server r).1) →
  (Z.to_nat ((now - timedelta_days 1 - (video_date + timedelta_days start_days))
             `div` 86400000000 + 1) ≤ fuel)%nat →
  ∃ s',
    get_history_danmaku_js_style serve fuel now cid (Some video_date) start_days end_days
      target_count s = Some ([], s')
    ∧ id_pool s' = id_pool s
    ∧ trace s'
      = trace s ++ ((λ k, EvGet (HistoryReq cid (date_of now - 1 - k))) <$>
                    seqZ 0 ((now - timedelta_days 1
                             - (video_date + timedelta_days start_days))
                            `div` 86400000000 + 1)).
Proof.
  intros Htarget _ _ _ _ _ _ _ Hserve Hfuel. unfold get_history_danmaku_js_style.
  assert ((if negb (end_days =? -1) then now - timedelta_days 1 else now - timedelta_days 1)
          = now - timedelta_days 1) as -> by (by destruct (negb _)).
  destruct (history_loop_day_by_day serve fuel cid target_count
    (video_date + timedelta_days start_days)
    {| current_date := now - timedelta_days 1; first_date := 0; ldanmu := []; aldanmu := [] |}
    s Htarget Hserve eq_refl eq_refl Hfuel) as (s' & Hloop & HP & Ht).
  exists s'. split; [exact Hloop|]. split; [exact HP|].
  rewrite Ht. cbn [current_date]. by rewrite date_of_days_before.
Qed.

Lemma history_walks_day_by_day_witness :
  ∃ s',
    get_history_danmaku_js_style (H:=ascii_platform)
      (constant_server (Response 412 []))
      3 (timedelta_days 10) 42 (Some (timedelta_days 7)) 0 1 0
      {| srv := (); id_pool := ∅; trace := [] |} = Some ([], s')
    ∧ trace s' = [EvGet (HistoryReq 42 9); EvGet (HistoryReq 42 8); EvGet (HistoryReq 42 7)].
Proof.
  destruct (history_walks_day_by_day (H:=ascii_platform)
    (constant_server (Response 412 []))
    3 (timedelta_days 10) 42 (timedelta_days 7) 0 1 0
    {| srv := (); id_pool := ∅; trace := [] |}) as (s' & Hrun & _ & Ht).
  - lia.
  - split; vm_compute; reflexivity.
  - split; vm_compute; discriminate.
  - split; vm_compute; discriminate.
  - split; vm_compute; discriminate.
  - split; vm_compute; discriminate.
  - split; vm_compute; discriminate.
  - split; vm_compute; discriminate.
  - intros [] r. left. discriminate.
  - vm_compute. lia.
  - exists s'. split; [exact Hrun|]. rewrite Ht. vm_compute. reflexivity.
Defined.

(** * The command line *)

Lemma pair_induction {A} (P : list A → Prop) :
  P [] → (∀ x, P [x]) → (∀ x y l, P l → P (x :: y :: l)) → ∀ l, P l.
Proof.
  intros Hnil Hone Hstep l.
  enough (P l ∧ ∀ x, P (x :: l)) as [? _] by done.
  induction l as [|y l [IH1 IH2]]; [by split|].
  split; [apply IH2|]. intros x. by apply Hstep.
Qed.

Section CommandLineProperties.
Variable int_of_str : string → option Z.
Variable strptime : string → option datetime.

Lemma parse_args_accepted args vd0 sd0 ed0 vd sd ed :
  parse_args int_of_str strptime args vd0 sd0 ed0 = Some (vd, sd, ed) →
  (∃ n, length args = (2 * n)%nat)
  ∧ (∀ i flag, args !! (2 * i)%nat = Some flag →
       flag = "--publish-date" ∨ flag = "--start-days" ∨ flag = "--end-days")
  ∧ (∀ i value, args !! (2 * i + 1)%nat = Some value →
       (args !! (2 * i)%nat = Some "--publish-date" → is_Some (strptime value))
       ∧ (args !! (2 * i)%nat ≠ Some "--publish-date" → is_Some (int_of_str value)))
  ∧ (is_Some vd ↔ is_Some vd0 ∨ ∃ i, args !! (2 * i)%nat = Some "--publish-date")
  ∧ (is_Some ed ↔ is_Some ed0 ∨ ∃ i, args !! (2 * i)%nat = Some "--end-days").
Proof.
  revert vd0 sd0 ed0.
  induction args as [|x|flag value args IH] using pair_induction;
    intros vd0 sd0 ed0.
  - intros [= <- <- <-]. split; [by exists 0%nat|].
    split; [by intros i flag ?|]. split; [by intros i value ?|].
    split; (split; [by left|]); by intros [?|[i ?]].
  - done.
  - cbn [parse_args].
    assert (∀ vd1 sd1 ed1,
      parse_args int_of_str strptime args vd1 sd1 ed1 = Some (vd, sd, ed) →
      (flag = "--publish-date" ∨ flag = "--start-days" ∨ flag = "--end-days") →
      (flag = "--publish-date" → is_Some (strptime value)) →
      (flag ≠ "--publish-date" → is_Some (int_of_str value)) →
      (is_Some vd1 ↔ is_Some vd0 ∨ flag = "--publish-date") →
      (is_Some ed1 ↔ is_Some ed0 ∨ flag = "--end-days") →
      (∃ n, length (flag :: value :: args) = (2 * n)%nat)
      ∧ (∀ i f, (flag :: value :: args) !! (2 * i)%nat = Some f →
           f = "--publish-date" ∨ f = "--start-days" ∨ f = "--end-days")
      ∧ (∀ i v, (flag :: value :: args) !! (2 * i + 1)%nat = Some v →
           ((flag :: value :: args) !! (2 * i)%nat = Some "--publish-date" →
            is_Some (strptime v))
           ∧ ((flag :: value :: args) !! (2 * i)%nat ≠ Some "--publish-date" →
              is_Some (int_of_str v)))
      ∧ (is_Some vd ↔ is_Some vd0
                      ∨ ∃ i, (flag :: value :: args) !! (2 * i)%nat = Some "--publish-date")
      ∧ (is_Some ed ↔ is_Some ed0
                      ∨ ∃ i, (flag :: value :: args) !! (2 * i)%nat = Some "--end-days"))
      as Hstep.
    { intros vd1 sd1 ed1 Hrest Hflag Hdate Hint Hvd Hed.
      destruct (IH _ _ _ Hrest) as ((n & Hn) & Hflags & Hvalues & Hvd' & Hed').
      assert (∀ i, (2 * S i = S (S (2 * i)))%nat) as H2 by (intros; lia).
      assert (∀ i, (2 * S i + 1 = S (S (2 * i + 1)))%nat) as H3 by (intros; lia).
      split; [exists (S n); simpl; lia|].
      split; [|split; [|split]].
      - intros [|i] f; [by intros [= <-]|]. rewrite H2. apply Hflags.
      - intros [|i] v.
        + intros [= <-]. split; [intros [= ?]; by apply Hdate|].
          intros Hne. apply Hint. intros ->. by apply Hne.
        + rewrite H3, H2. apply Hvalues.
      - rewrite Hvd', Hvd. split.
        + intros [[Hv | ->] | [i Hi]]; [by left|right; by exists 0%nat|].
          right. exists (S i). by rewrite H2.
        + intros [Hv | [[|i] Hi]]; [by left; left|left; right; by injection Hi|].
          right. exists i. by rewrite H2 in Hi.
      - rewrite Hed', Hed. split.
        + intros [[Hv | ->] | [i Hi]]; [by left|right; by exists 0%nat|].
          right. exists (S i). by rewrite H2.
        + intros [Hv | [[|i] Hi]]; [by left; left|left; right; by injection Hi|].
          right. exists i. by rewrite H2 in Hi. }
    destruct (decide (flag = "--publish-date")) as [->|Hpd].
    { destruct (strptime value) as [d|] eqn:Hd; [|done]. intros Hrest.
      apply (Hstep _ _ _ Hrest); [by left|done|done| |].
      - split; [by right|by intros _].
      - split; [by left|]. by intros [Hv | Hv]. }
    destruct (decide (flag = "--start-days")) as [->|Hsd].
    { destruct (int_of_str value) as [k|] eqn:Hk; [|done]. intros Hrest.
      apply (Hstep _ _ _ Hrest); [by right; left|done|done| |].
      - split; [by left|]. by intros [Hv | Hv].
      - split; [by left|]. by intros [Hv | Hv]. }
    destruct (decide (flag = "--end-days")) as [->|Hed]; [|done].
    destruct (int_of_str value) as [k|] eqn:Hk; [|done]. intros Hrest.
    apply (Hstep _ _ _ Hrest); [by right; right|done|done| |].
    + split; [by left|]. by intros [Hv | Hv].
    + split; [by right|by intros _].
Qed.

(** X12. What [main] accepts as a command line: a program name, a cid
    that [int] reads, and then pairs of a flag and its value only, so an
    even number of arguments; each flag is one of [--publish-date],
    [--start-days], [--end-days]; the value of [--publish-date] is one
    [strptime] reads, the value of the other two one [int] reads. A flag
    that is the last argument, without a value, is refused like an unknown
    one. The run has a publish date exactly when [--publish-date] stands at
    a flag's place, and an end offset exactly when [--end-days] does. *)
Theorem command_line_accepted (argv : list string) cid video_date start_days end_days :
  parse_command_line int_of_str strptime argv = Some (cid, video_date, start_days, end_days) →
  ∃ program cid_text args n,
    argv = program :: cid_text :: args
    ∧ int_of_str cid_text = Some cid
    ∧ length args = (2 * n)%nat
    ∧ (∀ i flag, args !! (2 * i)%nat = Some flag →
         flag = "--publish-date" ∨ flag = "--start-days" ∨ flag = "--end-days")
    ∧ (∀ i value, args !! (2 * i + 1)%nat = Some value →
         (args !! (2 * i)%nat = Some "--publish-date" → is_Some (strptime value))
         ∧ (args !! (2 * i)%nat ≠ Some "--publish-date" → is_Some (int_of_str value)))
    ∧ (is_Some video_date ↔ ∃ i, args !! (2 * i)%nat = Some "--publish-date")
    ∧ (is_Some end_days ↔ ∃ i, args !! (2 * i)%nat = Some "--end-days").
Proof.
  unfold parse_command_line.
  destruct argv as [|program [|cid_text args]]; [done..|].
  destruct (int_of_str cid_text) as [c|] eqn:Hc; [|done].
  destruct (parse_args int_of_str strptime args None 0 None) as [[[vd sd] ed]|] eqn:Hp;
    [|done].
  intros [= <- <- <- <-].
  destruct (parse_args_accepted _ _ _ _ _ _ _ Hp) as ((n & Hn) & Hflags & Hvalues & Hvd & Hed).
  exists program, cid_text, args, n. split; [done|]. split; [done|]. split; [done|].
  split; [done|]. split; [done|]. split.
  - rewrite Hvd. split; [by intros [[? [=]] | Hv]|by right].
  - rewrite Hed. split; [by intros [[? [=]] | Hv]|by right].
Qed.
End CommandLineProperties.

Lemma command_line_accepted_witness :
  ∃ args (n : nat),
    ["danmdown"; "42"; "--start-days"; "3"; "--publish-date"; "2023-01-01"]
    = "danmdown" :: "42" :: args
    ∧ length args = (2 * n)%nat.
Proof.
  destruct (command_line_accepted
    (λ s, Some (Z.of_nat (String.length s))) (λ s, Some 0)
    ["danmdown"; "42"; "--start-days"; "3"; "--publish-date"; "2023-01-01"]
    2 (Some 0) 1 None) as (program & cid_text & args & n & Hargv & _ & Hn & _).
  - vm_compute. reflexivity.
  - injection Hargv as <- <- <-. eexists _, n. split; [reflexivity|exact Hn].
Defined.
